(** * ParameterTraits3: parameter traits, SPSC ring buffer and worker

    A shallow embedding of [src/ParameterTraits.h] and [src/main.cpp].

    - [SPSC]    : the ring buffer [SPSCQueue<T, CapacityPow2>], with its two
                  indices, the backing array and the [& mask_] wrap-around;
    - [Float32] : IEEE binary32 values ([float]) on top of the standard
                  library's [spec_float], with their exact rational value;
    - [LibC]    : the library calls the header makes ([std::from_chars],
                  [std::strtof], [std::snprintf] with [%.2f]);
    - [Detail]  : [detail::parse_float] and [detail::safe_snp];
    - [Traits]  : the three [ParameterTraits<K>] specialisations and the
                  dispatch functions;
    - [Worker]  : the messages, [ParameterTable] and [ParamWorker], with the
                  producer and the worker thread as interleaved events. *)

From Stdlib Require Import ZArith QArith Lia Bool List Ascii String.
From Stdlib Require Import DecimalString.
From Stdlib Require Import SpecFloat.
From stdpp Require Import base list.

Local Open Scope Z_scope.

(** ** SPSCQueue<T, CapacityPow2> *)

Module SPSC.

Section Queue.
Context {T : Type}.
(** [T{}], the value the slots of [buf_{}] are initialised with. *)
Variable dflt : T.
(** [CapacityPow2] is [2 ^ k]. *)
Variable k : nat.

Definition size_t_max : Z := 2 ^ 64.
Definition size_t (z : Z) : Z := z mod size_t_max.

Definition CapacityPow2 : Z := 2 ^ Z.of_nat k.

(** [static_assert((CapacityPow2 & (CapacityPow2 - 1)) == 0, ...)] *)
Definition static_assert_pow2 : bool :=
  Z.land CapacityPow2 (size_t (CapacityPow2 - 1)) =? 0.

(** [static constexpr std::size_t mask_ = CapacityPow2 - 1;] *)
Definition mask_ : Z := size_t (CapacityPow2 - 1).

Record queue : Type := Queue {
  buf_ : list T;
  head_ : Z;
  tail_ : Z
}.

(** A freshly constructed queue: [buf_{}], [head_{0}], [tail_{0}]. *)
Definition empty : queue :=
  {| buf_ := replicate (Z.to_nat CapacityPow2) dflt; head_ := 0; tail_ := 0 |}.

Definition try_push (v : T) (q : queue) : bool * queue :=
  let head := head_ q in
  let next := Z.land (size_t (head + 1)) mask_ in
  if next =? tail_ q then (false, q)
  else (true, {| buf_ := <[Z.to_nat head := v]> (buf_ q);
                 head_ := next;
                 tail_ := tail_ q |}).

(** The slot a value is moved out of is left as it is: it is outside the
    pending range from then on, and next written by [try_push]. *)
Definition try_pop (q : queue) : option T * queue :=
  let tail := tail_ q in
  if tail =? head_ q then (None, q)
  else
    let v := nth (Z.to_nat tail) (buf_ q) dflt in
    (Some v, {| buf_ := buf_ q;
                head_ := head_ q;
                tail_ := Z.land (size_t (tail + 1)) mask_ |}).

(** Pushing a list of items one after the other, recording each result. *)
Fixpoint push_all (items : list T) (q : queue) : list bool * queue :=
  match items with
  | [] => ([], q)
  | v :: rest =>
      let '(r, q1) := try_push v q in
      let '(rs, q2) := push_all rest q1 in
      (r :: rs, q2)
  end.

(** [n] calls of [try_pop], recording each result. *)
Fixpoint pop_n (n : nat) (q : queue) : list (option T) * queue :=
  match n with
  | O => ([], q)
  | S n' =>
      let '(o, q1) := try_pop q in
      let '(os, q2) := pop_n n' q1 in
      (o :: os, q2)
  end.

(** *** Abstraction: the pending items, oldest first *)

(** Number of items pushed and not yet popped. *)
Definition pending (q : queue) : nat :=
  Z.to_nat ((head_ q - tail_ q) mod CapacityPow2).

Definition slot (q : queue) (i : nat) : T :=
  nth (Z.to_nat ((tail_ q + Z.of_nat i) mod CapacityPow2)) (buf_ q) dflt.

Definition contents (q : queue) : list T :=
  map (slot q) (seq 0 (pending q)).

(** The queue is full when the producer's next index meets the tail. *)
Definition is_full (q : queue) : bool :=
  Z.land (size_t (head_ q + 1)) mask_ =? tail_ q.

(** Representation invariant of the class. *)
Definition wf (q : queue) : Prop :=
  length (buf_ q) = Z.to_nat CapacityPow2 /\
  0 <= head_ q < CapacityPow2 /\
  0 <= tail_ q < CapacityPow2.

(** States a producer and a consumer can bring a fresh queue into. *)
Inductive reachable : queue -> Prop :=
| reach_empty : reachable empty
| reach_push v q : reachable q -> reachable (snd (try_push v q))
| reach_pop q : reachable q -> reachable (snd (try_pop q)).

(** *** Index arithmetic *)

Hypothesis k_fits : (k < 64)%nat.

Lemma capacity_pos : 0 < CapacityPow2.
Proof. unfold CapacityPow2. apply Z.pow_pos_nonneg; lia. Qed.

Lemma capacity_le : CapacityPow2 <= 2 ^ 63.
Proof. unfold CapacityPow2. apply Z.pow_le_mono_r; lia. Qed.

Lemma mask_ones : mask_ = Z.ones (Z.of_nat k).
Proof.
  unfold mask_, size_t, size_t_max.
  pose proof capacity_pos. pose proof capacity_le.
  rewrite Z.mod_small by lia.
  rewrite Z.ones_equiv. unfold CapacityPow2. lia.
Qed.

Lemma static_assert_holds : static_assert_pow2 = true.
Proof.
  unfold static_assert_pow2. fold mask_. rewrite mask_ones.
  rewrite Z.land_ones by lia. fold CapacityPow2.
  rewrite Z.mod_same by (pose proof capacity_pos; lia). reflexivity.
Qed.

Lemma next_index i :
  0 <= i < CapacityPow2 ->
  Z.land (size_t (i + 1)) mask_ = (i + 1) mod CapacityPow2.
Proof.
  intros Hi. pose proof capacity_le.
  unfold size_t, size_t_max. rewrite Z.mod_small by lia.
  rewrite mask_ones, Z.land_ones by lia. reflexivity.
Qed.

Lemma next_index_range i :
  0 <= i < CapacityPow2 ->
  0 <= Z.land (size_t (i + 1)) mask_ < CapacityPow2.
Proof.
  intros Hi. rewrite next_index by assumption.
  apply Z.mod_pos_bound, capacity_pos.
Qed.

(** A sum of two indices wraps at most once. *)
Lemma wrap_once a :
  0 <= a < 2 * CapacityPow2 ->
  a mod CapacityPow2 = if a <? CapacityPow2 then a else a - CapacityPow2.
Proof.
  intros Ha. destruct (Z.ltb_spec a CapacityPow2).
  - apply Z.mod_small; lia.
  - symmetry. apply (Z.mod_unique a CapacityPow2 1); lia.
Qed.

Lemma wrap_diff a :
  - CapacityPow2 < a < CapacityPow2 ->
  a mod CapacityPow2 = if a <? 0 then a + CapacityPow2 else a.
Proof.
  intros Ha. destruct (Z.ltb_spec a 0).
  - symmetry. apply (Z.mod_unique a CapacityPow2 (-1)); lia.
  - apply Z.mod_small; lia.
Qed.

Lemma pending_eq q :
  wf q ->
  Z.of_nat (pending q) =
  if head_ q - tail_ q <? 0 then head_ q - tail_ q + CapacityPow2
  else head_ q - tail_ q.
Proof.
  intros (_ & Hh & Ht). unfold pending.
  rewrite wrap_diff by lia.
  destruct (Z.ltb_spec (head_ q - tail_ q) 0); lia.
Qed.

Lemma pending_lt q : wf q -> Z.of_nat (pending q) < CapacityPow2.
Proof.
  intros Hq. pose proof Hq as (_ & Hh & Ht). rewrite pending_eq by assumption.
  destruct (Z.ltb_spec (head_ q - tail_ q) 0); lia.
Qed.

Lemma length_contents q : length (contents q) = pending q.
Proof. unfold contents. rewrite length_map, length_seq. reflexivity. Qed.

Lemma is_full_pending q :
  wf q -> is_full q = true <-> Z.of_nat (pending q) = CapacityPow2 - 1.
Proof.
  intros Hq. pose proof Hq as (_ & Hh & Ht).
  unfold is_full. rewrite next_index by assumption.
  rewrite wrap_once by lia. rewrite pending_eq by assumption.
  rewrite Z.eqb_eq.
  destruct (Z.ltb_spec (head_ q + 1) CapacityPow2);
    destruct (Z.ltb_spec (head_ q - tail_ q) 0); lia.
Qed.

Lemma wf_empty : wf empty.
Proof.
  pose proof capacity_pos.
  unfold wf, empty; simpl. rewrite length_replicate. lia.
Qed.

Lemma contents_empty : contents empty = [].
Proof.
  unfold contents, pending, empty. cbn [head_ tail_].
  rewrite Z.sub_diag, Z.mod_0_l by (pose proof capacity_pos; lia). reflexivity.
Qed.

Lemma try_push_unfold v q :
  try_push v q =
  if is_full q then (false, q)
  else (true, {| buf_ := <[Z.to_nat (head_ q) := v]> (buf_ q);
                 head_ := Z.land (size_t (head_ q + 1)) mask_;
                 tail_ := tail_ q |}).
Proof. reflexivity. Qed.

Lemma wf_try_push v q : wf q -> wf (snd (try_push v q)).
Proof.
  intros Hq. pose proof Hq as (Hl & Hh & Ht).
  rewrite try_push_unfold. destruct (is_full q); simpl; [assumption|].
  unfold wf; simpl. rewrite length_insert.
  pose proof (next_index_range (head_ q) Hh). tauto.
Qed.

Lemma wf_try_pop q : wf q -> wf (snd (try_pop q)).
Proof.
  intros Hq. pose proof Hq as (Hl & Hh & Ht).
  unfold try_pop. destruct (tail_ q =? head_ q); simpl; [assumption|].
  unfold wf; simpl.
  pose proof (next_index_range (tail_ q) Ht). tauto.
Qed.

Lemma reachable_wf q : reachable q -> wf q.
Proof.
  induction 1; auto using wf_empty, wf_try_push, wf_try_pop.
Qed.

(** A successful push appends the item to the pending ones. *)
Lemma contents_try_push v q :
  wf q -> is_full q = false ->
  contents (snd (try_push v q)) = contents q ++ [v].
Proof.
  intros Hq Hfull. pose proof Hq as (Hl & Hh & Ht).
  pose proof (pending_lt q Hq) as Hp.
  pose proof (pending_eq q Hq) as Hpe.
  assert (Hnf : Z.of_nat (pending q) <> CapacityPow2 - 1).
  { rewrite <- is_full_pending by assumption. congruence. }
  rewrite try_push_unfold, Hfull; simpl.
  set (q' := {| buf_ := _ |}).
  assert (Hp' : pending q' = S (pending q)).
  { unfold pending at 1; simpl. rewrite next_index by assumption.
    rewrite Zminus_mod_idemp_l.
    assert (Hq' : (head_ q + 1 - tail_ q) mod CapacityPow2
                  = Z.of_nat (pending q) + 1).
    { destruct (Z.ltb_spec (head_ q - tail_ q) 0).
      - symmetry. apply (Z.mod_unique _ _ (-1)); lia.
      - rewrite Z.mod_small; lia. }
    lia. }
  unfold contents. rewrite Hp', seq_S, map_app; simpl. f_equal.
  - apply map_ext_in. intros i Hi%in_seq.
    unfold slot, q'; simpl. rewrite !nth_lookup.
    rewrite list_lookup_insert_ne; [reflexivity|].
    rewrite wrap_once by lia.
    destruct (Z.ltb_spec (tail_ q + Z.of_nat i) CapacityPow2);
      destruct (Z.ltb_spec (head_ q - tail_ q) 0); lia.
  - unfold slot, q'; simpl. rewrite nth_lookup.
    replace ((tail_ q + Z.of_nat (pending q)) mod CapacityPow2) with (head_ q).
    + rewrite list_lookup_insert_eq by lia. reflexivity.
    + rewrite wrap_once by lia.
      destruct (Z.ltb_spec (tail_ q + Z.of_nat (pending q)) CapacityPow2);
        destruct (Z.ltb_spec (head_ q - tail_ q) 0); lia.
Qed.

(** A pop on a non-empty queue removes and returns the oldest item. *)
Lemma try_pop_contents q :
  wf q ->
  match contents q with
  | [] => try_pop q = (None, q)
  | x :: rest => fst (try_pop q) = Some x /\ contents (snd (try_pop q)) = rest
  end.
Proof.
  intros Hq. pose proof Hq as (Hl & Hh & Ht).
  pose proof (pending_lt q Hq) as Hp.
  pose proof (pending_eq q Hq) as Hpe.
  unfold contents, try_pop.
  destruct (Z.eqb_spec (tail_ q) (head_ q)) as [He|Hne].
  - replace (pending q) with O; [reflexivity|].
    rewrite He, Z.sub_diag in Hpe. simpl in Hpe. lia.
  - destruct (pending q) as [|n] eqn:Hn.
    { destruct (Z.ltb_spec (head_ q - tail_ q) 0); lia. }
    simpl. split.
    + unfold slot. rewrite Z.add_0_r, Z.mod_small by lia. reflexivity.
    + set (q' := {| buf_ := _ |}).
      assert (Hn' : pending q' = n).
      { unfold pending at 1; simpl. rewrite next_index by assumption.
        rewrite Zminus_mod_idemp_r.
        assert (Hq' : (head_ q - (tail_ q + 1)) mod CapacityPow2 = Z.of_nat n).
        { destruct (Z.ltb_spec (head_ q - tail_ q) 0).
          - symmetry. apply (Z.mod_unique _ _ (-1)); lia.
          - rewrite Z.mod_small; lia. }
        lia. }
      rewrite Hn', <- seq_shift, map_map.
      apply map_ext. intros i. unfold slot, q'; simpl.
      rewrite next_index by assumption. rewrite Zplus_mod_idemp_l.
      do 2 f_equal. f_equal. lia.
Qed.

Lemma try_push_full v q : is_full q = true -> try_push v q = (false, q).
Proof. intros H. rewrite try_push_unfold, H. reflexivity. Qed.

Lemma try_push_result v q : fst (try_push v q) = negb (is_full q).
Proof. rewrite try_push_unfold. destruct (is_full q); reflexivity. Qed.

Lemma push_all_contents items q :
  wf q ->
  Z.of_nat (pending q) + Z.of_nat (length items) < CapacityPow2 ->
  fst (push_all items q) = repeat true (length items) /\
  wf (snd (push_all items q)) /\
  contents (snd (push_all items q)) = contents q ++ items.
Proof.
  revert q. induction items as [|v rest IH]; intros q Hq Hlen; simpl.
  - rewrite app_nil_r. auto.
  - simpl in Hlen.
    assert (Hnf : is_full q = false).
    { destruct (is_full q) eqn:E; [|reflexivity].
      apply is_full_pending in E; [lia | assumption]. }
    pose proof (contents_try_push v q Hq Hnf) as Hc.
    pose proof (wf_try_push v q Hq) as Hw.
    pose proof (try_push_result v q) as Hr. rewrite Hnf in Hr.
    destruct (try_push v q) as [r q1]; simpl in *. subst r.
    assert (Hp1 : pending q1 = S (pending q)).
    { rewrite <- !length_contents, Hc, length_app. simpl. lia. }
    destruct (IH q1 Hw ltac:(lia)) as (IH1 & IH2 & IH3).
    destruct (push_all rest q1) as [rs q2]; simpl in *.
    rewrite IH1, IH3, Hc, <- app_assoc. auto.
Qed.

Lemma pop_n_contents xs ys q :
  wf q -> contents q = xs ++ ys ->
  fst (pop_n (length xs) q) = map Some xs /\
  wf (snd (pop_n (length xs) q)) /\
  contents (snd (pop_n (length xs) q)) = ys.
Proof.
  revert q. induction xs as [|x rest IH]; intros q Hq Hc; simpl.
  - auto.
  - pose proof (try_pop_contents q Hq) as Hpop. rewrite Hc in Hpop.
    simpl in Hpop. destruct Hpop as (Hx & Hrest).
    pose proof (wf_try_pop q Hq) as Hw.
    destruct (try_pop q) as [o q1]; simpl in *. subst o.
    destruct (IH q1 Hw Hrest) as (IH1 & IH2 & IH3).
    destruct (pop_n (length rest) q1) as [os q2]; simpl in *.
    rewrite IH1. auto.
Qed.

Lemma reachable_push_all items q :
  reachable q -> reachable (snd (push_all items q)).
Proof.
  revert q. induction items as [|v rest IH]; intros q Hq; simpl.
  - assumption.
  - pose proof (reach_push v q Hq) as H1.
    destruct (try_push v q) as [r q1]; simpl in *.
    specialize (IH q1 H1).
    destruct (push_all rest q1) as [rs q2]; simpl in *. assumption.
Qed.

(** *** The queue's contract *)

(** C4 (FIFO law).  Pushing [N < CapacityPow2] items into a fresh queue
    succeeds for every item, and the [N] following calls of [try_pop] return
    exactly these items, oldest first; nothing is left behind, so a further
    pop finds the queue empty. *)
Theorem fifo_push_then_pop (items : list T) :
  Z.of_nat (length items) < CapacityPow2 ->
  let pushed := push_all items empty in
  let popped := pop_n (length items) (snd pushed) in
  fst pushed = repeat true (length items) /\
  fst popped = map Some items /\
  contents (snd popped) = [] /\
  fst (try_pop (snd popped)) = None.
Proof.
  intros Hlen pushed popped.
  destruct (push_all_contents items empty wf_empty) as (Hr & Hw & Hc).
  { rewrite <- length_contents, contents_empty. simpl. lia. }
  rewrite contents_empty in Hc. simpl in Hc.
  destruct (pop_n_contents items [] (snd pushed) Hw) as (Ho & Hw2 & Hc2).
  { rewrite app_nil_r. exact Hc. }
  repeat split; try assumption.
  pose proof (try_pop_contents (snd popped) Hw2) as Hpop.
  fold popped in Hc2. rewrite Hc2 in Hpop. rewrite Hpop. reflexivity.
Qed.

(** C5.  [try_push] returns [true] exactly when the queue is not full, and
    then the item is appended behind the pending ones; on a full queue it
    returns [false] and leaves the whole queue (indices and buffer, hence
    the pending items and their order) as it was.  Full is the test the code
    makes, which holds exactly when [CapacityPow2 - 1] items are pending. *)
Theorem try_push_iff_not_full (v : T) (q : queue) :
  wf q ->
  (fst (try_push v q) = true <-> is_full q = false) /\
  (is_full q = false -> contents (snd (try_push v q)) = contents q ++ [v]) /\
  (is_full q = true ->
   try_push v q = (false, q) /\ contents (snd (try_push v q)) = contents q) /\
  (is_full q = true <-> Z.of_nat (length (contents q)) = CapacityPow2 - 1).
Proof.
  intros Hq. repeat split.
  - rewrite try_push_result. destruct (is_full q); simpl; congruence.
  - rewrite try_push_result. intros ->. reflexivity.
  - apply contents_try_push; assumption.
  - apply try_push_full; assumption.
  - rewrite try_push_full by assumption. reflexivity.
  - rewrite length_contents. apply is_full_pending; assumption.
  - rewrite length_contents. apply is_full_pending; assumption.
Qed.

(** C10.  In every state a producer and a consumer can reach, the backing
    array has [CapacityPow2] slots but at most [CapacityPow2 - 1] items are
    pending; with exactly [CapacityPow2 - 1] pending a push is refused, and
    that many pending items can indeed be reached. *)
Theorem usable_capacity (v : T) (q : queue) :
  reachable q ->
  Z.of_nat (length (buf_ q)) = CapacityPow2 /\
  Z.of_nat (length (contents q)) <= CapacityPow2 - 1 /\
  (Z.of_nat (length (contents q)) = CapacityPow2 - 1 ->
   try_push v q = (false, q)) /\
  (exists q', reachable q' /\
              Z.of_nat (length (contents q')) = CapacityPow2 - 1).
Proof.
  intros Hr. pose proof (reachable_wf q Hr) as Hq.
  pose proof Hq as (Hl & Hh & Ht). pose proof capacity_pos as Hc.
  repeat split.
  - lia.
  - rewrite length_contents. pose proof (pending_lt q Hq). lia.
  - rewrite length_contents. intros Hp.
    apply try_push_full, is_full_pending; assumption.
  - set (items := replicate (Z.to_nat (CapacityPow2 - 1)) dflt).
    exists (snd (push_all items empty)). split.
    + apply reachable_push_all, reach_empty.
    + destruct (push_all_contents items empty wf_empty) as (_ & _ & Hcs).
      { rewrite <- length_contents, contents_empty. unfold items.
        rewrite length_replicate. simpl. lia. }
      rewrite Hcs, contents_empty. unfold items. simpl.
      rewrite length_replicate. lia.
Qed.

End Queue.

(** The contract instantiated on a queue of four slots holding numbers. *)

Lemma fifo_push_then_pop_witness :
  let items := [7; 8; 9]%nat in
  (Z.of_nat (length items) < CapacityPow2 2) /\
  fst (pop_n 0%nat 2 (length items) (snd (push_all 2 items (empty 0%nat 2))))
  = map Some items.
Proof.
  split; [reflexivity|].
  apply (fifo_push_then_pop 0%nat 2 ltac:(lia) [7; 8; 9]%nat). reflexivity.
Defined.

Lemma try_push_iff_not_full_witness :
  wf 2 (empty 0%nat 2) /\
  (fst (try_push 2 5%nat (empty 0%nat 2)) = true
   <-> is_full 2 (empty 0%nat 2) = false).
Proof.
  split; [apply wf_empty; lia|].
  apply (try_push_iff_not_full 0%nat 2 ltac:(lia) 5%nat (empty 0%nat 2)).
  apply wf_empty; lia.
Defined.

Lemma usable_capacity_witness :
  reachable 0%nat 2 (empty 0%nat 2) /\
  Z.of_nat (length (contents 0%nat 2 (empty 0%nat 2))) <= CapacityPow2 2 - 1.
Proof.
  split; [apply reach_empty|].
  apply (usable_capacity 0%nat 2 ltac:(lia) 5%nat (empty 0%nat 2)).
  apply reach_empty.
Defined.

End SPSC.

(** ** [float]: IEEE binary32 *)

Module Float32.

Definition prec : Z := 24.
Definition emax : Z := 128.

(** A [float] is a [spec_float] that is a binary32 number ([valid]). *)
Definition float : Type := spec_float.

Definition valid (x : float) : bool := valid_binary prec emax x.

(** The comparison operators of the language on [float]: a comparison
    with a NaN operand is false. *)
Definition ge (x y : float) : bool :=
  match SFcompare x y with
  | Some (Gt | Eq) => true
  | _ => false
  end.

Definition le (x y : float) : bool :=
  match SFcompare x y with
  | Some (Lt | Eq) => true
  | _ => false
  end.

(** The literal [m * 2^e], rounded to binary32 as the compiler does. *)
Definition literal (m e : Z) : float := binary_normalize prec emax m e false.

(** The exact value of a finite float, [(-1)^s * m * 2^e], as a rational;
    infinities and NaN have none. *)
Definition to_Q (x : float) : option Q :=
  match x with
  | S754_zero _ => Some 0%Q
  | S754_finite s m e =>
      let sm := cond_Zopp s (Zpos m) in
      Some match e with
           | Z0 => inject_Z sm
           | Zpos p => inject_Z (sm * Z.pow_pos 2 p)
           | Zneg p => Qmake sm (Pos.pow 2 p)
           end
  | S754_infinity _ => None
  | S754_nan => None
  end.

(** [x] is a number in the closed interval [[lo, hi]]. *)
Definition in_range (lo hi : Q) (x : float) : Prop :=
  match to_Q x with
  | Some q => (lo <= q)%Q /\ (q <= hi)%Q
  | None => False
  end.

(** The value of a valid float in units of [2^-149], the least positive
    binary32 number: an integer. *)
Definition scaled (x : float) : Z :=
  match x with
  | S754_finite s m e => cond_Zopp s (Zpos m) * 2 ^ (e + 149)
  | _ => 0
  end.

Definition is_finite (x : float) : bool :=
  match x with
  | S754_zero _ | S754_finite _ _ _ => true
  | _ => false
  end.

(** *** Canonical mantissas *)

Lemma digits2_pos_bounds (m : positive) :
  2 ^ (Zpos (digits2_pos m) - 1) <= Zpos m < 2 ^ Zpos (digits2_pos m).
Proof.
  induction m as [m IH|m IH|]; simpl digits2_pos.
  - rewrite Pos2Z.inj_succ.
    replace (Z.succ (Zpos (digits2_pos m)) - 1) with (Zpos (digits2_pos m)) by lia.
    revert IH. generalize (Zpos (digits2_pos m)) (Pos2Z.is_pos (digits2_pos m)).
    intros d Hd IH. rewrite Z.pow_succ_r by lia.
    replace d with (Z.succ (d - 1)) at 1 by lia.
    rewrite Z.pow_succ_r by lia. lia.
  - rewrite Pos2Z.inj_succ.
    replace (Z.succ (Zpos (digits2_pos m)) - 1) with (Zpos (digits2_pos m)) by lia.
    revert IH. generalize (Zpos (digits2_pos m)) (Pos2Z.is_pos (digits2_pos m)).
    intros d Hd IH. rewrite Z.pow_succ_r by lia.
    replace d with (Z.succ (d - 1)) at 1 by lia.
    rewrite Z.pow_succ_r by lia. lia.
  - simpl. lia.
Qed.

(** What [valid] says of a finite float: the exponent is in range, the
    mantissa has at most 24 bits, and exactly 24 unless the exponent is the
    least one (a subnormal number). *)
Lemma valid_finite s m e :
  valid (S754_finite s m e) = true ->
  -149 <= e <= 104 /\ Zpos m < 2 ^ 24 /\ (-149 < e -> 2 ^ 23 <= Zpos m).
Proof.
  unfold valid, valid_binary, bounded, canonical_mantissa, fexp, SpecFloat.emin.
  unfold prec, emax. intros H.
  apply andb_true_iff in H. destruct H as [H1 H2].
  apply Z.eqb_eq in H1. apply Z.leb_le in H2.
  pose proof (digits2_pos_bounds m) as Hd.
  set (d := Zpos (digits2_pos m)) in *.
  assert (Hd24 : d <= 24) by lia.
  repeat split; try lia.
  - apply Z.lt_le_trans with (2 ^ d); [lia|].
    apply Z.pow_le_mono_r; lia.
  - intros He. assert (d = 24) by lia. subst d.
    replace (Zpos (digits2_pos m)) with 24 in Hd by lia. simpl in Hd. lia.
Qed.

(** *** Exact value and comparison *)

Lemma to_Q_scaled (x : float) (q : Q) :
  valid x = true -> to_Q x = Some q ->
  (q == Qmake (scaled x) (2 ^ 149))%Q.
Proof.
  intros Hv Hq. destruct x as [s| s | |s m e]; try discriminate.
  - injection Hq as <-. reflexivity.
  - apply valid_finite in Hv. destruct Hv as (He & _ & _).
    simpl in Hq. injection Hq as <-. unfold scaled.
    generalize (cond_Zopp s (Zpos m)). intros sm.
    destruct e as [|p|p]; unfold Qeq; cbn [Qnum Qden inject_Z].
    + simpl Z.add. lia.
    + change (Z.pow_pos 2 p) with (2 ^ Zpos p).
      rewrite Z.pow_add_r by lia. rewrite Pos2Z.inj_pow. lia.
    + rewrite !Pos2Z.inj_pow.
      rewrite <- Z.mul_assoc, <- Z.pow_add_r by lia.
      do 2 f_equal. lia.
Qed.

Lemma scaled_exp_lt m1 e1 m2 e2 :
  valid (S754_finite false m1 e1) = true ->
  valid (S754_finite false m2 e2) = true ->
  e1 < e2 ->
  Zpos m1 * 2 ^ (e1 + 149) < Zpos m2 * 2 ^ (e2 + 149).
Proof.
  intros H1 H2 Hlt.
  apply valid_finite in H1. apply valid_finite in H2.
  destruct H1 as (He1 & Hm1 & _). destruct H2 as (He2 & _ & Hm2).
  specialize (Hm2 ltac:(lia)).
  replace (e2 + 149) with ((e1 + 149) + (e2 - e1)) by lia.
  rewrite (Z.pow_add_r 2 (e1 + 149) (e2 - e1)) by lia.
  assert (HP : 0 < 2 ^ (e1 + 149)) by (apply Z.pow_pos_nonneg; lia).
  assert (HD : 2 ^ 1 <= 2 ^ (e2 - e1)) by (apply Z.pow_le_mono_r; lia).
  change (2 ^ 1) with 2 in HD. change (2 ^ 24) with 16777216 in Hm1.
  change (2 ^ 23) with 8388608 in Hm2.
  rewrite (Z.mul_comm (2 ^ (e1 + 149))), Z.mul_assoc.
  apply Z.mul_lt_mono_pos_r; [assumption|]. nia.
Qed.

Lemma compare_pos_finite m1 e1 m2 e2 :
  valid (S754_finite false m1 e1) = true ->
  valid (S754_finite false m2 e2) = true ->
  match e1 ?= e2 with
  | Lt => Lt
  | Gt => Gt
  | Eq => Pos.compare_cont Eq m1 m2
  end = (Zpos m1 * 2 ^ (e1 + 149) ?= Zpos m2 * 2 ^ (e2 + 149)).
Proof.
  intros H1 H2. destruct (Z.compare_spec e1 e2) as [He|He|He].
  - subst e2. pose proof (valid_finite _ _ _ H1) as (He & _ & _).
    assert (HP : 0 < 2 ^ (e1 + 149)) by (apply Z.pow_pos_nonneg; lia).
    rewrite <- Zmult_compare_compat_r by lia. reflexivity.
  - symmetry. apply Z.compare_lt_iff. apply scaled_exp_lt; assumption.
  - symmetry. apply Z.compare_gt_iff. apply scaled_exp_lt; assumption.
Qed.

(** On binary32 numbers other than infinities and NaN, [SFcompare] is the
    order of the exact values. *)
Lemma compare_scaled (x y : float) :
  valid x = true -> valid y = true ->
  is_finite x = true -> is_finite y = true ->
  SFcompare x y = Some (scaled x ?= scaled y).
Proof.
  intros Hx Hy Fx Fy.
  destruct x as [sx|sx| |sx mx ex]; try discriminate;
    destruct y as [sy|sy| |sy my ey]; try discriminate;
    unfold SFcompare, scaled.
  - reflexivity.
  - pose proof (valid_finite _ _ _ Hy) as (He & _ & _).
    assert (HP : 0 < 2 ^ (ey + 149)) by (apply Z.pow_pos_nonneg; lia).
    f_equal. symmetry. destruct sy; cbn [cond_Zopp].
    + apply Z.compare_gt_iff. nia.
    + apply Z.compare_lt_iff. nia.
  - pose proof (valid_finite _ _ _ Hx) as (He & _ & _).
    assert (HP : 0 < 2 ^ (ex + 149)) by (apply Z.pow_pos_nonneg; lia).
    f_equal. symmetry. destruct sx; cbn [cond_Zopp].
    + apply Z.compare_lt_iff. nia.
    + apply Z.compare_gt_iff. nia.
  - pose proof (valid_finite _ _ _ Hx) as (Hex & _ & _).
    pose proof (valid_finite _ _ _ Hy) as (Hey & _ & _).
    assert (HPx : 0 < 2 ^ (ex + 149)) by (apply Z.pow_pos_nonneg; lia).
    assert (HPy : 0 < 2 ^ (ey + 149)) by (apply Z.pow_pos_nonneg; lia).
    f_equal. destruct sx, sy; cbn [cond_Zopp].
    + transitivity (CompOpp match ex ?= ey with
                              | Lt => Lt
                              | Gt => Gt
                              | Eq => Pos.compare_cont Eq mx my
                              end).
      { destruct (ex ?= ey); reflexivity. }
      rewrite (compare_pos_finite mx ex my ey Hx Hy).
      rewrite <- Z.compare_antisym, !Z.mul_opp_l, Z.compare_opp.
      reflexivity.
    + symmetry. apply Z.compare_lt_iff. nia.
    + symmetry. apply Z.compare_gt_iff. nia.
    + apply compare_pos_finite; assumption.
Qed.

Lemma le_to_Q (x y : float) (qx qy : Q) :
  valid x = true -> valid y = true ->
  to_Q x = Some qx -> to_Q y = Some qy ->
  le x y = true <-> (qx <= qy)%Q.
Proof.
  intros Hx Hy Qx Qy.
  assert (Fx : is_finite x = true) by (destruct x; simpl in *; congruence).
  assert (Fy : is_finite y = true) by (destruct y; simpl in *; congruence).
  rewrite (to_Q_scaled x qx Hx Qx), (to_Q_scaled y qy Hy Qy).
  unfold le. rewrite (compare_scaled x y Hx Hy Fx Fy).
  unfold Qle; cbn [Qnum Qden].
  destruct (Z.compare_spec (scaled x) (scaled y)); split; intros; try lia; try discriminate.
Qed.

Lemma ge_to_Q (x y : float) (qx qy : Q) :
  valid x = true -> valid y = true ->
  to_Q x = Some qx -> to_Q y = Some qy ->
  ge x y = true <-> (qy <= qx)%Q.
Proof.
  intros Hx Hy Qx Qy.
  assert (Fx : is_finite x = true) by (destruct x; simpl in *; congruence).
  assert (Fy : is_finite y = true) by (destruct y; simpl in *; congruence).
  rewrite (to_Q_scaled x qx Hx Qx), (to_Q_scaled y qy Hy Qy).
  unfold ge. rewrite (compare_scaled x y Hx Hy Fx Fy).
  unfold Qle; cbn [Qnum Qden].
  destruct (Z.compare_spec (scaled x) (scaled y)); split; intros; try lia; try discriminate.
Qed.

End Float32.

(** ** The C and C++ library calls of [namespace detail]

    [std::from_chars], [std::strtof] and [std::snprintf] are not code of the
    repository; they are modelled here as the language standards specify
    them for the [C] locale and the default rounding mode: conversions are
    correctly rounded, to nearest with ties to even.  A C string is the
    [string] of its characters before the terminating NUL. *)

Module LibC.

Import Float32.

Local Open Scope string_scope.
Local Open Scope Z_scope.

Definition code (c : ascii) : Z := Z.of_N (N_of_ascii c).

Definition isspace (c : ascii) : bool :=
  (code c =? 32) || ((9 <=? code c) && (code c <=? 13)).

Definition digit (c : ascii) : option Z :=
  if (48 <=? code c) && (code c <=? 57) then Some (code c - 48) else None.

Definition xdigit (c : ascii) : option Z :=
  if (48 <=? code c) && (code c <=? 57) then Some (code c - 48)
  else if (97 <=? code c) && (code c <=? 102) then Some (code c - 87)
  else if (65 <=? code c) && (code c <=? 70) then Some (code c - 55)
  else None.

Definition tolower (c : ascii) : ascii :=
  if (65 <=? code c) && (code c <=? 90)
  then ascii_of_N (Z.to_N (code c + 32)) else c.

(** [isalnum] or an underscore: the characters of an n-char-sequence. *)
Definition nchar (c : ascii) : bool :=
  ((48 <=? code c) && (code c <=? 57)) ||
  ((97 <=? code c) && (code c <=? 122)) ||
  ((65 <=? code c) && (code c <=? 90)) || (code c =? 95).

(** The longest run of digits in front of [s], read in [base] on top of
    [acc]; with it, how many digits there were and what follows them. *)
Fixpoint scan_digits (base : Z) (dig : ascii -> option Z)
    (s : string) (acc : Z) (cnt : Z) : Z * Z * string :=
  match s with
  | String c rest =>
      match dig c with
      | Some d => scan_digits base dig rest (acc * base + d) (cnt + 1)
      | None => (acc, cnt, s)
      end
  | EmptyString => (acc, cnt, s)
  end.

(** Digits with an optional radix point, at least one digit in all:
    the digits as one integer and the number of those after the point. *)
Definition scan_significand (base : Z) (dig : ascii -> option Z)
    (s : string) : option (Z * Z * string) :=
  let '(m1, n1, r1) := scan_digits base dig s 0 0 in
  match r1 with
  | String "." r2 =>
      let '(m2, n2, r3) := scan_digits base dig r2 m1 0 in
      if n1 + n2 =? 0 then None else Some (m2, n2, r3)
  | _ => if n1 =? 0 then None else Some (m1, 0, r1)
  end.

(** An optional exponent part: a marker ([e] or [p], either case), an
    optional sign and at least one decimal digit.  Without digits nothing is
    consumed. *)
Definition scan_exponent (marker : ascii) (s : string) : Z * string :=
  match s with
  | String c r =>
      if Ascii.eqb (tolower c) marker then
        let '(sg, r1) :=
          match r with
          | String "+" r' => (1, r')
          | String "-" r' => (-1, r')
          | _ => (1, r)
          end in
        let '(e, n, r2) := scan_digits 10 digit r1 0 0 in
        if n =? 0 then (0, s) else (sg * e, r2)
      else (0, s)
  | EmptyString => (0, s)
  end.

(** [prefix_ci p s]: [s] starts with [p] up to letter case ([p] is written in
    lower case); what follows it. *)
Fixpoint prefix_ci (p s : string) : option string :=
  match p with
  | EmptyString => Some s
  | String a p' =>
      match s with
      | String c s' => if Ascii.eqb (tolower c) a then prefix_ci p' s' else None
      | EmptyString => None
      end
  end.

Fixpoint skip_nchars (s : string) : string :=
  match s with
  | String c r => if nchar c then skip_nchars r else s
  | EmptyString => s
  end.

(** The rational [num / den] ([0 <= num], [0 < den]) with the sign [neg],
    rounded to binary32; a magnitude too large gives an infinity. *)
Definition round_ratio (neg : bool) (num den : Z) : float :=
  if num =? 0 then S754_zero neg
  else
    let '(mz, ez, lz) := SFdiv_core_binary prec emax num 0 den 0 in
    binary_round_aux prec emax neg mz ez lz.

(** [mant * base ^ ex], rounded. *)
Definition round_scaled (neg : bool) (mant base ex : Z) : float :=
  if 0 <=? ex then round_ratio neg (mant * base ^ ex) 1
  else round_ratio neg mant (base ^ (- ex)).

(** What a numeric prefix denotes. *)
Inductive number : Type :=
| Infinity
| NaN
| Rational (mant base ex : Z).

(** [inf], [infinity], [nan] and [nan(n-char-sequence)], in any case. *)
Definition scan_special (s : string) : option (number * string) :=
  match prefix_ci "inf" s with
  | Some r =>
      match prefix_ci "inity" r with
      | Some r' => Some (Infinity, r')
      | None => Some (Infinity, r)
      end
  | None =>
      match prefix_ci "nan" s with
      | Some r =>
          match r with
          | String "(" r1 =>
              match skip_nchars r1 with
              | String ")" r2 => Some (NaN, r2)
              | _ => Some (NaN, r)
              end
          | _ => Some (NaN, r)
          end
      | None => None
      end
  end.

(** A decimal floating constant: significand and optional exponent. *)
Definition scan_decimal (s : string) : option (number * string) :=
  match scan_significand 10 digit s with
  | Some (mant, fd, r) =>
      let '(ex, r') := scan_exponent "e" r in
      Some (Rational mant 10 (ex - fd), r')
  | None => None
  end.

(** A hexadecimal floating constant, after its [0x]. *)
Definition scan_hex (s : string) : option (number * string) :=
  match scan_significand 16 xdigit s with
  | Some (mant, fd, r) =>
      let '(ex, r') := scan_exponent "p" r in
      Some (Rational mant 2 (ex - 4 * fd), r')
  | None => None
  end.

Definition to_float (neg : bool) (x : number) : float :=
  match x with
  | Infinity => S754_infinity neg
  | NaN => S754_nan
  | Rational mant base ex => round_scaled neg mant base ex
  end.

(** A value [std::from_chars] reports as out of range: one too large for a
    finite float, or a non-zero one that rounds to zero. *)
Definition out_of_range (x : number) : bool :=
  match x with
  | Rational mant base ex =>
      match round_scaled false mant base ex with
      | S754_infinity _ => true
      | S754_zero _ => negb (mant =? 0)
      | _ => false
      end
  | _ => false
  end.

Inductive errc : Type :=
| errc_none
| invalid_argument
| result_out_of_range.

(** [std::from_chars_result]; [ptr] is counted from [first]. *)
Record from_chars_result : Type := {
  ptr : Z;
  ec : errc
}.

Definition consumed (s rest : string) : Z :=
  Z.of_nat (String.length s) - Z.of_nat (String.length rest).

(** [std::from_chars(first, last, value, std::chars_format::general)]:
    an optional minus sign (no plus sign, no leading space, no [0x]), then a
    decimal constant or a special value.  [value] is written on success
    only. *)
Definition from_chars (s : string) (value : float)
    : from_chars_result * float :=
  let '(neg, body) :=
    match s with
    | String "-" r => (true, r)
    | _ => (false, s)
    end in
  let scanned :=
    match scan_special body with
    | Some r => Some r
    | None => scan_decimal body
    end in
  match scanned with
  | None => ({| ptr := 0; ec := invalid_argument |}, value)
  | Some (x, rest) =>
      if out_of_range x
      then ({| ptr := consumed s rest; ec := result_out_of_range |}, value)
      else ({| ptr := consumed s rest; ec := errc_none |}, to_float neg x)
  end.

Fixpoint skip_spaces (s : string) : string :=
  match s with
  | String c r => if isspace c then skip_spaces r else s
  | EmptyString => s
  end.

(** [std::strtof(in, &end)]: the value and [end - in]; no conversion leaves
    [end == in] and returns zero. *)
Definition strtof (s : string) : float * Z :=
  let s1 := skip_spaces s in
  let '(neg, body) :=
    match s1 with
    | String "-" r => (true, r)
    | String "+" r => (false, r)
    | _ => (false, s1)
    end in
  let hex :=
    match prefix_ci "0x" body with
    | Some r => scan_hex r
    | None => None
    end in
  let scanned :=
    match scan_special body with
    | Some r => Some r
    | None =>
        match hex with
        | Some r => Some r
        | None => scan_decimal body
        end
    end in
  match scanned with
  | None => (S754_zero false, 0)
  | Some (x, rest) => (to_float neg x, consumed s rest)
  end.

(** *** Formatted output *)

(** [p / q] rounded to an integer, to nearest with ties to even
    ([0 <= p], [0 < q]). *)
Definition round_half_even (p q : Z) : Z :=
  let d := p / q in
  let r := p mod q in
  match 2 * r ?= q with
  | Lt => d
  | Gt => d + 1
  | Eq => if Z.even d then d else d + 1
  end.

(** The magnitude [m * 2^e] in hundredths, rounded to an integer. *)
Definition hundredths (m : positive) (e : Z) : Z :=
  match e with
  | Z0 => Zpos m * 100
  | Zpos p => Zpos m * Z.pow_pos 2 p * 100
  | Zneg p => round_half_even (Zpos m * 100) (Zpos (Pos.pow 2 p))
  end.

Definition decimal (n : Z) : string :=
  NilZero.string_of_uint (N.to_uint (Z.to_N n)).

(** [h] hundredths in fixed notation with two decimals. *)
Definition fixed2 (neg : bool) (h : Z) : string :=
  ((if neg then "-" else "") ++ decimal (h / 100) ++ "." ++
   decimal (h mod 100 / 10) ++ decimal (h mod 10))%string.

(** The characters the conversion [%.2f] produces for a [float] argument
    (promoted to [double], which changes no value). *)
Definition fmt_2f (x : float) : string :=
  match x with
  | S754_nan => "nan"
  | S754_infinity s => if s then "-inf" else "inf"
  | S754_zero s => fixed2 s 0
  | S754_finite s m e => fixed2 s (hundredths m e)
  end.

Fixpoint take (n : nat) (s : string) : string :=
  match n, s with
  | S n', String c r => String c (take n' r)
  | _, _ => EmptyString
  end.

(** [std::snprintf(out, n, fmt, value)] for [0 < n], where [text] is what
    the format produces: at most [n - 1] characters and a NUL are stored,
    and the length of the whole text is returned. *)
Definition snprintf (n : Z) (text : string) : string * Z :=
  (take (Z.to_nat (n - 1)) text, Z.of_nat (String.length text)).

(** *** The model on sample inputs *)

Example strtof_decimal : strtof "37.5" = (literal 75 (-1), 4).
Proof. reflexivity. Qed.

Example strtof_space_sign_hex : strtof "  +0x1.8p1z" = (literal 3 0, 10).
Proof. reflexivity. Qed.

Example strtof_no_conversion : strtof "abc" = (S754_zero false, 0).
Proof. reflexivity. Qed.

Example strtof_overflow : strtof "1e999" = (S754_infinity false, 5).
Proof. vm_compute. reflexivity. Qed.

Example from_chars_no_plus_sign (x : float) :
  from_chars "+1" x = ({| ptr := 0; ec := invalid_argument |}, x).
Proof. reflexivity. Qed.

Example from_chars_out_of_range (x : float) :
  from_chars "1e999" x = ({| ptr := 5; ec := result_out_of_range |}, x).
Proof. vm_compute. reflexivity. Qed.

Example fmt_2f_ties_to_even :
  fmt_2f (literal 1 (-3)) = "0.12" /\ fmt_2f (literal 3 (-3)) = "0.38".
Proof. split; reflexivity. Qed.

Example fmt_2f_negative_zero : fmt_2f (S754_zero true) = "-0.00".
Proof. reflexivity. Qed.

End LibC.

(** ** [namespace detail] *)

Module Detail.

Import Float32 LibC.

Local Open Scope string_scope.
Local Open Scope Z_scope.

(** [bool parse_float(const char* in, float& out)], as compiled where
    [<charconv>] converts floating-point numbers; [None] is the null
    pointer.  The result is the returned flag and [out] afterwards. *)
Definition parse_float (inp : option string) (out : float) : bool * float :=
  match inp with
  | None => (false, out)
  | Some s =>
      let '(r, out1) := from_chars s out in
      if match ec r with errc_none => true | _ => false end
         && negb (ptr r =? 0)
      then (true, out1)
      else
        let '(v, end_) := strtof s in
        if end_ =? 0 then (false, out1) else (true, v)
  end.

(** [int safe_snp(const char* fmt, const T& value, char* out, size_t n)];
    [fmt] is given by the text it produces for a value.  The result is the
    returned count and the C string in [out] afterwards. *)
Definition safe_snp {T : Type} (fmt : T -> string) (value : T)
    (out : string) (n : Z) : Z * string :=
  if n =? 0 then (0, out)
  else
    let '(out1, written) := snprintf n (fmt value) in
    (if (0 <=? written) && (written <? n) then written else 0, out1).

(** Null, empty and non-numeric inputs fail and leave [out] alone; a text
    too large for a [float] is read as an infinity by the fallback. *)
Example parse_float_not_a_number (out : float) :
  parse_float None out = (false, out) /\
  parse_float (Some "") out = (false, out) /\
  parse_float (Some "abc") out = (false, out) /\
  parse_float (Some "1e999") out = (true, S754_infinity false).
Proof. repeat split; vm_compute; reflexivity. Qed.

Lemma take_all (k : nat) (s : string) :
  (String.length s <= k)%nat -> take k s = s.
Proof.
  revert k. induction s as [|c s IH]; intros k Hk.
  - destruct k; reflexivity.
  - destruct k; simpl in *; [lia|]. rewrite IH by lia. reflexivity.
Qed.

(** No room: nothing is reported as written. *)
Lemma safe_snp_no_room {T : Type} (fmt : T -> string) (v : T)
    (out : string) (n : Z) :
  n = 0 \/ n <= Z.of_nat (String.length (fmt v)) ->
  fst (safe_snp fmt v out n) = 0.
Proof.
  intros H. unfold safe_snp, snprintf.
  destruct (Z.eqb_spec n 0); [reflexivity|]. simpl.
  destruct H as [H|H]; [contradiction|].
  destruct (Z.ltb_spec (Z.of_nat (String.length (fmt v))) n); [lia|].
  rewrite andb_false_r. reflexivity.
Qed.

(** Room for the text and its NUL: the whole text is stored and its length
    returned. *)
Lemma safe_snp_fits {T : Type} (fmt : T -> string) (v : T)
    (out : string) (n : Z) :
  Z.of_nat (String.length (fmt v)) < n ->
  safe_snp fmt v out n = (Z.of_nat (String.length (fmt v)), fmt v).
Proof.
  intros H. unfold safe_snp, snprintf.
  destruct (Z.eqb_spec n 0); [lia|].
  rewrite take_all by lia.
  destruct (Z.leb_spec 0 (Z.of_nat (String.length (fmt v)))); [|lia].
  destruct (Z.ltb_spec (Z.of_nat (String.length (fmt v))) n); [|lia].
  reflexivity.
Qed.

End Detail.

(** ** [ParameterTraits<T>] *)

Module ParameterID.

Inductive t : Type :=
| TemperatureSetpoint
| HighTemperatureAlarm
| FanDutyCycle.

End ParameterID.

Lemma ParameterID_eq_dec (x y : ParameterID.t) : {x = y} + {x <> y}.
Proof. decide equality. Defined.

Module Traits.

Import Float32 LibC Detail.

Local Open Scope string_scope.
Local Open Scope Z_scope.

Record TemperatureSetpoint : Type := { value : float }.
Record HighTemperatureAlarm : Type := { threshold : float }.
Record FanDutyCycle : Type := { percent : float }.

(** The interface every specialisation provides. *)
Class ParameterTraits (T : Type) : Type := {
  name : string;
  default_v : T;
  validate : T -> bool;
  parse : option string -> T -> bool * T;
  serialize : T -> string -> Z -> Z * string
}.

Module TemperatureSetpointTraits.

Definition name : string := "TemperatureSetpoint".

(** [{ 37.5f }] *)
Definition default_v : TemperatureSetpoint := {| value := literal 75 (-1) |}.

Definition validate (x : TemperatureSetpoint) : bool :=
  ge (value x) (literal 0 0) && le (value x) (literal 100 0).

Definition parse (inp : option string) (out : TemperatureSetpoint)
    : bool * TemperatureSetpoint :=
  let v := literal 0 0 in
  let '(ok, v) := parse_float inp v in
  if negb ok then (false, out)
  else
    let out := {| value := v |} in
    (validate out, out).

Definition serialize (x : TemperatureSetpoint) (out : string) (n : Z)
    : Z * string :=
  safe_snp fmt_2f (value x) out n.

End TemperatureSetpointTraits.

Module HighTemperatureAlarmTraits.

Definition name : string := "HighTemperatureAlarm".

(** [{ 80.0f }] *)
Definition default_v : HighTemperatureAlarm := {| threshold := literal 80 0 |}.

Definition validate (x : HighTemperatureAlarm) : bool :=
  ge (threshold x) (literal 0 0) && le (threshold x) (literal 150 0).

Definition parse (inp : option string) (out : HighTemperatureAlarm)
    : bool * HighTemperatureAlarm :=
  let v := literal 0 0 in
  let '(ok, v) := parse_float inp v in
  if negb ok then (false, out)
  else
    let out := {| threshold := v |} in
    (validate out, out).

Definition serialize (x : HighTemperatureAlarm) (out : string) (n : Z)
    : Z * string :=
  safe_snp fmt_2f (threshold x) out n.

End HighTemperatureAlarmTraits.

Module FanDutyCycleTraits.

Definition name : string := "FanDutyCycle".

(** [{ 50.0f }] *)
Definition default_v : FanDutyCycle := {| percent := literal 50 0 |}.

Definition validate (x : FanDutyCycle) : bool :=
  ge (percent x) (literal 0 0) && le (percent x) (literal 100 0).

Definition parse (inp : option string) (out : FanDutyCycle)
    : bool * FanDutyCycle :=
  let v := literal 0 0 in
  let '(ok, v) := parse_float inp v in
  if negb ok then (false, out)
  else
    let out := {| percent := v |} in
    (validate out, out).

Definition serialize (x : FanDutyCycle) (out : string) (n : Z)
    : Z * string :=
  safe_snp fmt_2f (percent x) out n.

End FanDutyCycleTraits.

#[export] Instance TemperatureSetpoint_traits : ParameterTraits TemperatureSetpoint := {|
  name := TemperatureSetpointTraits.name;
  default_v := TemperatureSetpointTraits.default_v;
  validate := TemperatureSetpointTraits.validate;
  parse := TemperatureSetpointTraits.parse;
  serialize := TemperatureSetpointTraits.serialize
|}.

#[export] Instance HighTemperatureAlarm_traits : ParameterTraits HighTemperatureAlarm := {|
  name := HighTemperatureAlarmTraits.name;
  default_v := HighTemperatureAlarmTraits.default_v;
  validate := HighTemperatureAlarmTraits.validate;
  parse := HighTemperatureAlarmTraits.parse;
  serialize := HighTemperatureAlarmTraits.serialize
|}.

#[export] Instance FanDutyCycle_traits : ParameterTraits FanDutyCycle := {|
  name := FanDutyCycleTraits.name;
  default_v := FanDutyCycleTraits.default_v;
  validate := FanDutyCycleTraits.validate;
  parse := FanDutyCycleTraits.parse;
  serialize := FanDutyCycleTraits.serialize
|}.

(** Compile-time dispatch. *)
Definition param_name (T : Type) `{ParameterTraits T} : string := name.
Definition param_default (T : Type) `{ParameterTraits T} : T := default_v.
Definition param_parse {T : Type} `{ParameterTraits T}
    (inp : option string) (out : T) : bool * T := parse inp out.
Definition param_validate {T : Type} `{ParameterTraits T} (x : T) : bool :=
  validate x.
Definition param_serialize {T : Type} `{ParameterTraits T}
    (x : T) (out : string) (n : Z) : Z * string := serialize x out n.

(** *** The three kinds as one family

    For statements about every kind: the value type of a kind, its traits,
    its single numeric field and its declared upper bound. *)

Definition tag (id : ParameterID.t) : Type :=
  match id with
  | ParameterID.TemperatureSetpoint => TemperatureSetpoint
  | ParameterID.HighTemperatureAlarm => HighTemperatureAlarm
  | ParameterID.FanDutyCycle => FanDutyCycle
  end.

Definition traits (id : ParameterID.t) : ParameterTraits (tag id) :=
  match id with
  | ParameterID.TemperatureSetpoint => TemperatureSetpoint_traits
  | ParameterID.HighTemperatureAlarm => HighTemperatureAlarm_traits
  | ParameterID.FanDutyCycle => FanDutyCycle_traits
  end.

Definition field {id : ParameterID.t} : tag id -> float :=
  match id with
  | ParameterID.TemperatureSetpoint => value
  | ParameterID.HighTemperatureAlarm => threshold
  | ParameterID.FanDutyCycle => percent
  end.

Definition make (id : ParameterID.t) (v : float) : tag id :=
  match id with
  | ParameterID.TemperatureSetpoint => {| value := v |}
  | ParameterID.HighTemperatureAlarm => {| threshold := v |}
  | ParameterID.FanDutyCycle => {| percent := v |}
  end.

Definition upper (id : ParameterID.t) : Q :=
  match id with
  | ParameterID.TemperatureSetpoint => 100
  | ParameterID.HighTemperatureAlarm => 150
  | ParameterID.FanDutyCycle => 100
  end%Q.

Definition validate_of (id : ParameterID.t) : tag id -> bool :=
  @param_validate _ (traits id).
Definition parse_of (id : ParameterID.t)
    : option string -> tag id -> bool * tag id :=
  @param_parse _ (traits id).
Definition serialize_of (id : ParameterID.t)
    : tag id -> string -> Z -> Z * string :=
  @param_serialize _ (traits id).
Definition name_of (id : ParameterID.t) : string :=
  @param_name _ (traits id).
Definition default_of (id : ParameterID.t) : tag id :=
  @param_default _ (traits id).

(** *** Checking the round trip through text *)

(** The declared upper bound of a kind, in hundredths. *)
Definition upper_hundredths (id : ParameterID.t) : Z :=
  match id with
  | ParameterID.TemperatureSetpoint => 10000
  | ParameterID.HighTemperatureAlarm => 15000
  | ParameterID.FanDutyCycle => 10000
  end.

(** The text of [h] hundredths parses back, as a number the kind accepts
    and whose own text is the same; the text and its NUL take at most seven
    bytes. *)
Definition roundtrip_ok (id : ParameterID.t) (neg : bool) (h : Z) : bool :=
  let text := fixed2 neg h in
  match parse_float (Some text) (literal 0 0) with
  | (true, v) =>
      validate_of id (make id v) && String.eqb (fmt_2f v) text
      && (Z.of_nat (String.length text) <? 7)
  | (false, _) => false
  end.

(** [P] on [count] consecutive integers from [h] on. *)
Fixpoint all_from (P : Z -> bool) (count : nat) (h : Z) : bool :=
  match count with
  | O => true
  | S c => P h && all_from P c (h + 1)
  end.

(** *** Validation *)

Lemma zero_literal : literal 0 0 = S754_zero false.
Proof. reflexivity. Qed.

(** The check [x >= 0.0f && x <= hi] on binary32 numbers. *)
Lemma range_check (x hi : float) (hq : Q) :
  valid x = true -> valid hi = true -> to_Q hi = Some hq ->
  ge x (literal 0 0) && le x hi = true <-> in_range 0 hq x.
Proof.
  intros Hx Hhi Hq. rewrite zero_literal. unfold in_range.
  destruct (to_Q x) as [q|] eqn:Hqx.
  - rewrite andb_true_iff.
    rewrite (ge_to_Q x (S754_zero false) q 0%Q Hx eq_refl Hqx eq_refl).
    rewrite (le_to_Q x hi q hq Hx Hhi Hqx Hq). reflexivity.
  - split; [|tauto]. intros H. apply andb_true_iff in H. destruct H as [H1 H2].
    destruct x as [s|[|]| |s m e]; try discriminate.
    destruct hi; discriminate.
Qed.

Lemma in_range_upper_eq (lo hi hi' : Q) (x : float) :
  (hi == hi')%Q -> in_range lo hi x <-> in_range lo hi' x.
Proof.
  intros E. unfold in_range. destruct (to_Q x); [|tauto].
  rewrite E. tauto.
Qed.

Lemma validate_of_range (id : ParameterID.t) (x : tag id) :
  valid (field x) = true ->
  validate_of id x = true <-> in_range 0 (upper id) (field x).
Proof.
  intros Hx. destruct id; cbn in x |- *.
  - rewrite <- (in_range_upper_eq 0 (13107200 # 131072) 100) by reflexivity.
    apply range_check; [assumption|reflexivity|reflexivity].
  - rewrite <- (in_range_upper_eq 0 (9830400 # 65536) 150) by reflexivity.
    apply range_check; [assumption|reflexivity|reflexivity].
  - rewrite <- (in_range_upper_eq 0 (13107200 # 131072) 100) by reflexivity.
    apply range_check; [assumption|reflexivity|reflexivity].
Qed.

(** C3.  On every binary32 number, [validate] of a kind is true exactly when
    the number lies in the kind's closed interval ([0, 100], [0, 150],
    [0, 100]); it is false on NaN and on both infinities. *)
Theorem validate_iff_in_range (id : ParameterID.t) (x : tag id) :
  valid (field x) = true ->
  (validate_of id x = true <-> in_range 0 (upper id) (field x)) /\
  validate_of id (make id S754_nan) = false /\
  validate_of id (make id (S754_infinity false)) = false /\
  validate_of id (make id (S754_infinity true)) = false.
Proof.
  intros Hx. split; [apply validate_of_range; assumption|].
  destruct id; repeat split; reflexivity.
Qed.

(** *** Serialisation *)

Lemma serialize_of_unfold (id : ParameterID.t) (x : tag id) out n :
  serialize_of id x out n = safe_snp fmt_2f (field x) out n.
Proof. destruct id; reflexivity. Qed.

(** C8.  [serialize] into [n] bytes returns zero when [n] is zero or when
    the two-decimal text and its terminating NUL do not fit in [n] bytes. *)
Theorem serialize_zero_without_room (id : ParameterID.t) (x : tag id)
    (out : string) (n : Z) :
  n = 0 \/ n < Z.of_nat (String.length (fmt_2f (field x))) + 1 ->
  fst (serialize_of id x out n) = 0.
Proof.
  intros H. rewrite serialize_of_unfold.
  apply safe_snp_no_room. lia.
Qed.

(** *** Parsing *)

Lemma parse_of_unfold (id : ParameterID.t) inp (out : tag id) :
  parse_of id inp out =
  let '(ok, v) := parse_float inp (literal 0 0) in
  if negb ok then (false, out)
  else (validate_of id (make id v), make id v).
Proof. destruct id; reflexivity. Qed.

(** C1 as stated fails: the text [200] is a number, so [parse] stores it in
    [out] before validation rejects it. *)
Lemma parse_rejected_number_is_written :
  let out := default_of ParameterID.TemperatureSetpoint in
  let r := parse_of ParameterID.TemperatureSetpoint (Some "200") out in
  fst r = false /\ snd r <> out /\ value (snd r) = literal 200 0.
Proof.
  cbv zeta. repeat split. vm_compute. discriminate.
Qed.

(** C1, amended.  When [parse] fails, either the text is not a number (or
    the pointer is null) and [out] is unchanged, or a number was read and
    [out] now holds that number, which [validate] rejects. *)
Theorem parse_failure_output (id : ParameterID.t) (inp : option string)
    (out : tag id) :
  fst (parse_of id inp out) = false ->
  (fst (parse_float inp (literal 0 0)) = false /\
   snd (parse_of id inp out) = out) \/
  (exists v : float,
     parse_float inp (literal 0 0) = (true, v) /\
     validate_of id (make id v) = false /\
     snd (parse_of id inp out) = make id v).
Proof.
  rewrite parse_of_unfold.
  destruct (parse_float inp (literal 0 0)) as [[|] v]; simpl; intros H.
  - right. exists v. auto.
  - left. auto.
Qed.

(** *** Round trip through text *)




Lemma all_from_spec (P : Z -> bool) (count : nat) (h0 h : Z) :
  all_from P count h0 = true ->
  h0 <= h < h0 + Z.of_nat count -> P h = true.
Proof.
  revert h0. induction count as [|c IH]; intros h0 Hall Hh; [lia|].
  simpl in Hall. apply andb_true_iff in Hall. destruct Hall as [H0 Hrest].
  destruct (Z.eq_dec h h0) as [->|Hne]; [assumption|].
  apply (IH (h0 + 1)); [assumption|lia].
Qed.

(** Every text a value in bounds can have, checked one by one. *)
Lemma roundtrip_table (id : ParameterID.t) :
  all_from (roundtrip_ok id false) (Z.to_nat (upper_hundredths id + 1)) 0
  = true.
Proof. destruct id; vm_compute; reflexivity. Qed.

Lemma roundtrip_negative_zero (id : ParameterID.t) :
  roundtrip_ok id true 0 = true.
Proof. destruct id; vm_compute; reflexivity. Qed.

Lemma round_half_even_le (p q K : Z) :
  0 < q -> p <= K * q -> round_half_even p q <= K.
Proof.
  intros Hq Hp. unfold round_half_even.
  pose proof (Z.div_mod p q ltac:(lia)) as Hdm.
  pose proof (Z.mod_pos_bound p q Hq) as Hr.
  assert (Hd : p / q <= K) by (apply Z.div_le_upper_bound; lia).
  destruct (Z.eq_dec (p / q) K) as [E|E].
  - assert (p mod q = 0) by nia.
    replace (2 * (p mod q) ?= q) with Lt; [lia|].
    symmetry. apply Z.compare_lt_iff. lia.
  - destruct (2 * (p mod q) ?= q); [destruct (Z.even (p / q))|..]; lia.
Qed.

Lemma round_half_even_nonneg (p q : Z) :
  0 < q -> 0 <= p -> 0 <= round_half_even p q.
Proof.
  intros Hq Hp. unfold round_half_even.
  assert (0 <= p / q) by (apply Z.div_pos; lia).
  destruct (2 * (p mod q) ?= q); [destruct (Z.even (p / q))|..]; lia.
Qed.

Lemma hundredths_bounds (m : positive) (e : Z) (q : Q) (K : Z) :
  to_Q (S754_finite false m e) = Some q -> (q <= inject_Z K)%Q ->
  0 <= hundredths m e <= 100 * K.
Proof.
  intros Hq Hle. simpl in Hq. injection Hq as <-.
  destruct e as [|p|p]; unfold Qle in Hle; cbn [Qnum Qden inject_Z] in Hle;
    unfold hundredths.
  - lia.
  - change (Z.pow_pos 2 p) with (2 ^ Zpos p) in *.
    assert (0 < 2 ^ Zpos p) by (apply Z.pow_pos_nonneg; lia). nia.
  - split.
    + apply round_half_even_nonneg; lia.
    + apply round_half_even_le; lia.
Qed.

Lemma upper_inject (id : ParameterID.t) :
  (upper id == inject_Z (upper_hundredths id / 100))%Q.
Proof. destruct id; reflexivity. Qed.

(** The text of a value in bounds: a number of hundredths up to the bound,
    or negative zero. *)
Lemma text_in_range (id : ParameterID.t) (v : float) :
  in_range 0 (upper id) v ->
  exists (neg : bool) (h : Z),
    fmt_2f v = fixed2 neg h /\
    ((neg = false /\ 0 <= h <= upper_hundredths id) \/ (neg = true /\ h = 0)).
Proof.
  unfold in_range. destruct v as [s|s| |s m e]; cbn [to_Q]; try tauto.
  - intros _. exists s, 0. split; [reflexivity|].
    destruct s; [right|left]; split; try reflexivity. destruct id; simpl; lia.
  - intros [Hlo Hhi]. destruct s.
    + exfalso. revert Hlo. cbn [cond_Zopp].
      destruct e; unfold Qle; cbn [Qnum Qden inject_Z]; lia.
    + exists false, (hundredths m e). split; [reflexivity|]. left.
      split; [reflexivity|].
      rewrite (upper_inject id) in Hhi.
      pose proof (hundredths_bounds m e _ _ eq_refl Hhi) as Hb.
      assert (100 * (upper_hundredths id / 100) = upper_hundredths id)
        by (destruct id; reflexivity).
      lia.
Qed.

Lemma field_make (id : ParameterID.t) (v : float) : field (make id v) = v.
Proof. destruct id; reflexivity. Qed.

(** C9.  A binary32 value [x] within the bounds of its kind passes
    [validate]; serialised into a buffer of seven bytes or more it gives its
    whole two-decimal text, [parse] of that text succeeds, and the value it
    yields serialises to the same text. *)
Theorem serialize_parse_roundtrip (id : ParameterID.t) (x out0 : tag id)
    (out : string) (n : Z) :
  valid (field x) = true ->
  in_range 0 (upper id) (field x) ->
  7 <= n ->
  validate_of id x = true /\
  serialize_of id x out n =
    (Z.of_nat (String.length (fmt_2f (field x))), fmt_2f (field x)) /\
  exists y : tag id,
    parse_of id (Some (snd (serialize_of id x out n))) out0 = (true, y) /\
    serialize_of id y out n = serialize_of id x out n.
Proof.
  intros Hv Hr Hn. split; [apply validate_of_range; assumption|].
  destruct (text_in_range id (field x) Hr) as (neg & h & Htext & Hcase).
  assert (Hok : roundtrip_ok id neg h = true).
  { destruct Hcase as [[-> Hh]|[-> ->]].
    - apply (all_from_spec _ _ 0 h (roundtrip_table id)). lia.
    - apply roundtrip_negative_zero. }
  unfold roundtrip_ok in Hok. rewrite <- Htext in Hok.
  destruct (parse_float (Some (fmt_2f (field x))) (literal 0 0))
    as [[|] v] eqn:Hp; [|discriminate].
  apply andb_true_iff in Hok. destruct Hok as [Hok Hlen].
  apply andb_true_iff in Hok. destruct Hok as [Hval Heq].
  apply String.eqb_eq in Heq. apply Z.ltb_lt in Hlen.
  assert (Hx : serialize_of id x out n =
               (Z.of_nat (String.length (fmt_2f (field x))), fmt_2f (field x))).
  { rewrite serialize_of_unfold. apply safe_snp_fits. lia. }
  split; [exact Hx|].
  exists (make id v). rewrite Hx. cbn [snd]. split.
  - rewrite parse_of_unfold, Hp. cbn [negb]. rewrite Hval. reflexivity.
  - rewrite serialize_of_unfold, field_make.
    rewrite safe_snp_fits by (rewrite Heq; lia). rewrite Heq. reflexivity.
Qed.


(** *** The contract on concrete values *)

Lemma validate_iff_in_range_witness :
  let x := make ParameterID.FanDutyCycle (literal 45 0) in
  valid (field x) = true /\
  (validate_of ParameterID.FanDutyCycle x = true <->
   in_range 0 (upper ParameterID.FanDutyCycle) (field x)).
Proof.
  split; [reflexivity|].
  exact (proj1 (validate_iff_in_range ParameterID.FanDutyCycle
                  (make ParameterID.FanDutyCycle (literal 45 0)) eq_refl)).
Defined.

Lemma serialize_zero_without_room_witness :
  let x := default_of ParameterID.TemperatureSetpoint in
  fmt_2f (field x) = "37.50" /\
  fst (serialize_of ParameterID.TemperatureSetpoint x "" 3) = 0.
Proof.
  split; [reflexivity|].
  apply (serialize_zero_without_room ParameterID.TemperatureSetpoint).
  right. vm_compute. reflexivity.
Defined.

Lemma parse_failure_output_witness :
  let out := default_of ParameterID.HighTemperatureAlarm in
  fst (parse_of ParameterID.HighTemperatureAlarm (Some "abc") out) = false /\
  ((fst (parse_float (Some "abc") (literal 0 0)) = false /\
    snd (parse_of ParameterID.HighTemperatureAlarm (Some "abc") out) = out) \/
   (exists v : float,
      parse_float (Some "abc") (literal 0 0) = (true, v) /\
      validate_of ParameterID.HighTemperatureAlarm
        (make ParameterID.HighTemperatureAlarm v) = false /\
      snd (parse_of ParameterID.HighTemperatureAlarm (Some "abc") out)
      = make ParameterID.HighTemperatureAlarm v)).
Proof.
  split; [reflexivity|].
  apply (parse_failure_output ParameterID.HighTemperatureAlarm (Some "abc")).
  reflexivity.
Defined.

Lemma serialize_parse_roundtrip_witness :
  let x := make ParameterID.HighTemperatureAlarm (literal 90 0) in
  valid (field x) = true /\
  serialize_of ParameterID.HighTemperatureAlarm x "" 32 = (5, "90.00") /\
  exists y : HighTemperatureAlarm,
    parse_of ParameterID.HighTemperatureAlarm
      (Some (snd (serialize_of ParameterID.HighTemperatureAlarm x "" 32)))
      (default_of ParameterID.HighTemperatureAlarm) = (true, y) /\
    serialize_of ParameterID.HighTemperatureAlarm y "" 32
    = serialize_of ParameterID.HighTemperatureAlarm x "" 32.
Proof.
  split; [reflexivity|]. split; [reflexivity|].
  apply (serialize_parse_roundtrip ParameterID.HighTemperatureAlarm
           (make ParameterID.HighTemperatureAlarm (literal 90 0))).
  - reflexivity.
  - split; vm_compute; discriminate.
  - lia.
Defined.

End Traits.

(** ** Messages, [ParameterTable] and [ParamWorker] *)

Module Worker.

Import Float32 LibC Detail Traits.

Local Open Scope string_scope.
Local Open Scope list_scope.
Local Open Scope Z_scope.

(** [struct Stop {};] *)
Inductive Stop : Type := Stop_ : Stop.

(** [template <typename ParamTag> struct SetParam { ParamTag value{}; };] *)
Record SetParam (ParamTag : Type) : Type := { value : ParamTag }.
Arguments value {ParamTag} _.

(** [using Msg = std::variant<...>] *)
Inductive Msg : Type :=
| Msg_TemperatureSetpoint (s : SetParam TemperatureSetpoint)
| Msg_HighTemperatureAlarm (s : SetParam HighTemperatureAlarm)
| Msg_FanDutyCycle (s : SetParam FanDutyCycle)
| Msg_Stop (s : Stop).

(** [Msg{}]: the first alternative, value-initialised. *)
Definition Msg_default : Msg :=
  Msg_TemperatureSetpoint {| value := {| Traits.value := literal 0 0 |} |}.

Record ParameterTable : Type := {
  t : TemperatureSetpoint;
  a : HighTemperatureAlarm;
  f : FanDutyCycle
}.

(** The default member initialisers. *)
Definition ParameterTable_init : ParameterTable := {|
  t := param_default TemperatureSetpoint;
  a := param_default HighTemperatureAlarm;
  f := param_default FanDutyCycle
|}.

(** [ParameterTable::set<Tag>]: one branch of the [if constexpr] chain per
    parameter type. *)
Class TableSlot (Tag : Type) : Type := {
  set : Tag -> ParameterTable -> ParameterTable
}.

#[export] Instance TemperatureSetpoint_slot : TableSlot TemperatureSetpoint := {|
  set v tbl := {| t := v; a := a tbl; f := f tbl |}
|}.

#[export] Instance HighTemperatureAlarm_slot : TableSlot HighTemperatureAlarm := {|
  set v tbl := {| t := t tbl; a := v; f := f tbl |}
|}.

#[export] Instance FanDutyCycle_slot : TableSlot FanDutyCycle := {|
  set v tbl := {| t := t tbl; a := a tbl; f := v |}
|}.

Definition newline : string := String "010" EmptyString.

(** [ParameterTable::print], as the text sent to [std::cout]. *)
Definition print (tbl : ParameterTable) : string :=
  let buf := "" in
  let '(n, buf) := param_serialize (t tbl) buf 32 in
  let s1 := ("Params { Tset=" ++ (if (n =? 0)%Z then "?" else buf))%string in
  let '(n, buf) := param_serialize (a tbl) buf 32 in
  let s2 := (", HighAlarm=" ++ (if (n =? 0)%Z then "?" else buf))%string in
  let '(n, buf) := param_serialize (f tbl) buf 32 in
  let s3 := (", FanDuty=" ++ (if (n =? 0)%Z then "?" else buf) ++ "% }"
             ++ newline)%string in
  (s1 ++ s2 ++ s3)%string.

(** [SPSCQueue<Msg, 1024>] *)
Definition log2_capacity : nat := 10.

Definition queue : Type := @SPSC.queue Msg.
Definition try_push : Msg -> queue -> bool * queue := SPSC.try_push log2_capacity.
Definition try_pop : queue -> option Msg * queue :=
  SPSC.try_pop Msg_default log2_capacity.

(** A [ParamWorker] with the queue and the table it refers to, and what it
    has written to [std::cout]. *)
Record ParamWorker : Type := {
  q_ : queue;
  table_ : ParameterTable;
  running_ : bool;
  cout : string
}.

(** [void handle(const Stop&)] *)
Definition handle_Stop (_ : Stop) (w : ParamWorker) : ParamWorker :=
  {| q_ := q_ w; table_ := table_ w; running_ := false; cout := cout w |}.

(** [template <typename Tag> void handle(const SetParam<Tag>& s)] *)
Definition handle {Tag : Type} `{ParameterTraits Tag} `{TableSlot Tag}
    (s : SetParam Tag) (w : ParamWorker) : ParamWorker :=
  if param_validate (value s) then
    {| q_ := q_ w; table_ := set (value s) (table_ w);
       running_ := running_ w; cout := cout w |}
  else
    let buf := "" in
    let '(n, buf) := param_serialize (value s) buf 32 in
    {| q_ := q_ w; table_ := table_ w; running_ := running_ w;
       cout := (cout w ++ "[Reject] " ++ param_name Tag ++ " value"
                ++ newline)%string |}.

(** [std::visit([this](auto&& x){ handle(x); }, *m)] *)
Definition visit (m : Msg) (w : ParamWorker) : ParamWorker :=
  match m with
  | Msg_TemperatureSetpoint s => handle s w
  | Msg_HighTemperatureAlarm s => handle s w
  | Msg_FanDutyCycle s => handle s w
  | Msg_Stop s => handle_Stop s w
  end.

(** The body of the loop of [run]: one pop, then the handler or the sleep. *)
Definition run_iteration (w : ParamWorker) : ParamWorker :=
  match try_pop (q_ w) with
  | (Some m, q') =>
      visit m {| q_ := q'; table_ := table_ w;
                 running_ := running_ w; cout := cout w |}
  | (None, _) => w
  end.

(** [void run()], alone on the queue: [Some] when the loop is left within
    [fuel] iterations. *)
Fixpoint run (fuel : nat) (w : ParamWorker) : option ParamWorker :=
  if running_ w then
    match fuel with
    | O => None
    | S fuel' => run fuel' (run_iteration w)
    end
  else Some w.

(** [void start()]: the flag is set and the thread enters [run]. *)
Definition start (w : ParamWorker) : ParamWorker :=
  {| q_ := q_ w; table_ := table_ w; running_ := true; cout := cout w |}.

(** A worker on a fresh queue and a fresh table, as [main] builds it. *)
Definition fresh : ParamWorker := {|
  q_ := SPSC.empty Msg_default log2_capacity;
  table_ := ParameterTable_init;
  running_ := false;
  cout := ""
|}.

(** What the two threads do, one step at a time: the producer pushes a
    message, or the worker thread takes a turn.  A turn is an iteration of
    the loop of [run] while the flag is set; once the flag is found clear
    the loop is left and the thread does nothing more. *)
Inductive event : Type :=
| producer_push (m : Msg)
| worker_turn.

Definition step (w : ParamWorker) (e : event) : ParamWorker :=
  match e with
  | producer_push m =>
      {| q_ := snd (try_push m (q_ w)); table_ := table_ w;
         running_ := running_ w; cout := cout w |}
  | worker_turn => if running_ w then run_iteration w else w
  end.

Definition run_events (es : list event) (w : ParamWorker) : ParamWorker :=
  fold_left step es w.

(** *** The kinds as one family *)

Definition set_of (id : ParameterID.t)
    : tag id -> ParameterTable -> ParameterTable :=
  match id with
  | ParameterID.TemperatureSetpoint => set
  | ParameterID.HighTemperatureAlarm => set
  | ParameterID.FanDutyCycle => set
  end.

(** The slot of a kind. *)
Definition get (id : ParameterID.t) (tbl : ParameterTable) : tag id :=
  match id with
  | ParameterID.TemperatureSetpoint => t tbl
  | ParameterID.HighTemperatureAlarm => a tbl
  | ParameterID.FanDutyCycle => f tbl
  end.

(** The message [SetParam<K>{ v }]. *)
Definition SetParam_msg (id : ParameterID.t) : tag id -> Msg :=
  match id with
  | ParameterID.TemperatureSetpoint => fun v => Msg_TemperatureSetpoint {| value := v |}
  | ParameterID.HighTemperatureAlarm => fun v => Msg_HighTemperatureAlarm {| value := v |}
  | ParameterID.FanDutyCycle => fun v => Msg_FanDutyCycle {| value := v |}
  end.

(** Every slot of the table passes the validator of its kind. *)
Definition table_valid (tbl : ParameterTable) : Prop :=
  forall id : ParameterID.t, validate_of id (get id tbl) = true.

(** The messages not yet consumed, oldest first. *)
Definition unconsumed (w : ParamWorker) : list Msg :=
  SPSC.contents Msg_default log2_capacity (q_ w).

(** The messages the producer offers in a run of events. *)
Fixpoint offered (es : list event) : list Msg :=
  match es with
  | [] => []
  | producer_push m :: es' => m :: offered es'
  | worker_turn :: es' => offered es'
  end.

(** The messages the producer of [main] pushes. *)
Definition main_messages : list Msg :=
  [ SetParam_msg ParameterID.TemperatureSetpoint {| Traits.value := literal 75 (-1) |};
    SetParam_msg ParameterID.HighTemperatureAlarm {| threshold := literal 90 0 |};
    SetParam_msg ParameterID.FanDutyCycle {| percent := literal 45 0 |};
    SetParam_msg ParameterID.FanDutyCycle {| percent := literal 200 0 |};
    Msg_Stop Stop_ ].

(** *** Handling one message *)

Lemma capacity_fits : (log2_capacity < 64)%nat.
Proof. unfold log2_capacity. lia. Qed.

Lemma visit_SetParam (id : ParameterID.t) (v : tag id) (w : ParamWorker) :
  visit (SetParam_msg id v) w =
  if validate_of id v then
    {| q_ := q_ w; table_ := set_of id v (table_ w);
       running_ := running_ w; cout := cout w |}
  else
    {| q_ := q_ w; table_ := table_ w; running_ := running_ w;
       cout := (cout w ++ "[Reject] " ++ name_of id ++ " value"
                ++ newline)%string |}.
Proof.
  destruct id; cbn [SetParam_msg visit]; unfold handle;
    cbn [value]; unfold validate_of, set_of, name_of;
    cbn [traits tag] in *;
    (destruct (param_validate v); [reflexivity|]);
    destruct (param_serialize v "" 32); reflexivity.
Qed.

Lemma get_set_of (id : ParameterID.t) (v : tag id) (tbl : ParameterTable) :
  get id (set_of id v tbl) = v.
Proof. destruct id; reflexivity. Qed.

Lemma get_set_of_other (id id' : ParameterID.t) (v : tag id)
    (tbl : ParameterTable) :
  id' <> id -> get id' (set_of id v tbl) = get id' tbl.
Proof. destruct id, id'; intros H; try reflexivity; contradiction. Qed.

Lemma run_iteration_pop (w : ParamWorker) (m : Msg) :
  fst (try_pop (q_ w)) = Some m ->
  run_iteration w =
  visit m {| q_ := snd (try_pop (q_ w)); table_ := table_ w;
             running_ := running_ w; cout := cout w |}.
Proof.
  unfold run_iteration. destruct (try_pop (q_ w)) as [[m'|] q']; simpl.
  - intros [= ->]. reflexivity.
  - discriminate.
Qed.

(** C2.  A running worker whose next message is [SetParam<K>{v}] stays
    running after its turn.  If [validate(v)] holds the slot of [K] is [v]
    afterwards, the other slots are as before and nothing is printed; if not,
    the table is as before and a notice with the name of [K] is printed. *)
Theorem worker_applies_or_rejects (id : ParameterID.t) (v : tag id)
    (w : ParamWorker) :
  running_ w = true ->
  fst (try_pop (q_ w)) = Some (SetParam_msg id v) ->
  let w' := step w worker_turn in
  running_ w' = true /\
  (validate_of id v = true ->
   get id (table_ w') = v /\
   (forall id', id' <> id -> get id' (table_ w') = get id' (table_ w)) /\
   cout w' = cout w) /\
  (validate_of id v = false ->
   table_ w' = table_ w /\
   get id (table_ w') = get id (table_ w) /\
   cout w' = (cout w ++ "[Reject] " ++ name_of id ++ " value"
              ++ newline)%string).
Proof.
  intros Hrun Hpop w'. subst w'. cbn [step]. rewrite Hrun.
  rewrite (run_iteration_pop w _ Hpop), visit_SetParam.
  destruct (validate_of id v); cbn [running_ table_ cout].
  - split; [assumption|]. split; [|discriminate]. intros _.
    split; [apply get_set_of|]. split; [|reflexivity].
    intros id' Hne. apply get_set_of_other; assumption.
  - split; [assumption|]. split; [discriminate|]. auto.
Qed.

(** *** The table stays valid *)

Lemma table_valid_init : table_valid ParameterTable_init.
Proof. intros []; reflexivity. Qed.

Lemma table_valid_set_of (id : ParameterID.t) (v : tag id) tbl :
  validate_of id v = true -> table_valid tbl ->
  table_valid (set_of id v tbl).
Proof.
  intros Hv Htbl id'. destruct (ParameterID_eq_dec id' id) as [->|Hne].
  - rewrite get_set_of. assumption.
  - rewrite get_set_of_other by assumption. apply Htbl.
Qed.

Lemma Msg_cases (m : Msg) :
  (exists id v, m = SetParam_msg id v) \/ (exists s, m = Msg_Stop s).
Proof.
  destruct m as [[v]|[v]|[v]|s].
  - left. exists ParameterID.TemperatureSetpoint, v. reflexivity.
  - left. exists ParameterID.HighTemperatureAlarm, v. reflexivity.
  - left. exists ParameterID.FanDutyCycle, v. reflexivity.
  - right. exists s. reflexivity.
Qed.

Lemma table_valid_visit (m : Msg) (w : ParamWorker) :
  table_valid (table_ w) -> table_valid (table_ (visit m w)).
Proof.
  intros Hw. destruct (Msg_cases m) as [(id & v & ->)|(s & ->)].
  - rewrite visit_SetParam. destruct (validate_of id v) eqn:Hv; cbn [table_].
    + apply table_valid_set_of; assumption.
    + assumption.
  - exact Hw.
Qed.

Lemma table_valid_step (w : ParamWorker) (e : event) :
  table_valid (table_ w) -> table_valid (table_ (step w e)).
Proof.
  intros Hw. destruct e as [m|]; cbn [step table_]; [assumption|].
  destruct (running_ w); [|assumption].
  unfold run_iteration. destruct (try_pop (q_ w)) as [[m|] q']; [|assumption].
  apply table_valid_visit. exact Hw.
Qed.

Lemma table_valid_run_events (es : list event) (w : ParamWorker) :
  table_valid (table_ w) -> table_valid (table_ (run_events es w)).
Proof.
  revert w. induction es as [|e es IH]; intros w Hw; [assumption|].
  apply IH, table_valid_step, Hw.
Qed.

(** C6.  Whatever the producer pushes and however the two threads
    interleave, before and after [start], every slot of the table passes the
    validator of its kind. *)
Theorem table_never_invalid (es1 es2 : list event) (id : ParameterID.t) :
  let w := run_events es2 (start (run_events es1 fresh)) in
  validate_of id (get id (table_ (run_events es1 fresh))) = true /\
  validate_of id (get id (table_ w)) = true.
Proof.
  assert (H1 : table_valid (table_ (run_events es1 fresh))).
  { apply table_valid_run_events, table_valid_init. }
  split; [apply H1|].
  apply table_valid_run_events. exact H1.
Qed.

(** *** After [Stop] *)



Lemma try_push_tail (m : Msg) (q : queue) :
  SPSC.tail_ (snd (try_push m q)) = SPSC.tail_ q.
Proof.
  unfold try_push. rewrite SPSC.try_push_unfold.
  destruct (SPSC.is_full log2_capacity q); reflexivity.
Qed.

Lemma try_push_unconsumed (m : Msg) (q : queue) :
  SPSC.wf log2_capacity q ->
  exists acc : list Msg,
    acc `sublist_of` [m] /\
    SPSC.contents Msg_default log2_capacity (snd (try_push m q))
    = SPSC.contents Msg_default log2_capacity q ++ acc.
Proof.
  intros Hq. unfold try_push.
  destruct (SPSC.is_full log2_capacity q) eqn:Hfull.
  - exists []. split; [apply sublist_nil_l|].
    rewrite SPSC.try_push_full by assumption. cbn [snd].
    rewrite app_nil_r. reflexivity.
  - exists [m]. split; [reflexivity|].
    apply SPSC.contents_try_push; [apply capacity_fits|assumption..].
Qed.

(** A stopped worker stays stopped: events change nothing but the
    producer's end of the queue. *)
Lemma stopped_run_events (es : list event) (w : ParamWorker) :
  SPSC.wf log2_capacity (q_ w) -> running_ w = false ->
  let w' := run_events es w in
  SPSC.wf log2_capacity (q_ w') /\
  running_ w' = false /\ table_ w' = table_ w /\ cout w' = cout w /\
  SPSC.tail_ (q_ w') = SPSC.tail_ (q_ w) /\
  exists accepted : list Msg,
    accepted `sublist_of` offered es /\
    unconsumed w' = unconsumed w ++ accepted.
Proof.
  revert w. induction es as [|e es IH]; intros w Hq Hstop; cbn zeta.
  - repeat match goal with |- _ /\ _ => split end;
      try assumption; try reflexivity.
    exists []. split; [reflexivity|].
    cbn [run_events fold_left]. rewrite app_nil_r. reflexivity.
  - cbn [run_events fold_left]. fold (run_events es (step w e)).
    destruct e as [m|].
    + pose proof (SPSC.wf_try_push log2_capacity capacity_fits m _ Hq) as Hq1.
      destruct (try_push_unconsumed m _ Hq) as (acc & Hsub & Hacc).
      specialize (IH (step w (producer_push m)) Hq1 Hstop).
      cbn zeta in IH.
      destruct IH as (Hw & Hr & Ht & Hc & Htl & accepted & Hs & Hu).
      repeat match goal with |- _ /\ _ => split end; try assumption.
      * rewrite Htl. apply try_push_tail.
      * exists (acc ++ accepted). split.
        -- change (offered (producer_push m :: es)) with ([m] ++ offered es).
           apply sublist_app; assumption.
        -- rewrite Hu. unfold unconsumed at 1. cbn [step q_].
           rewrite Hacc, <- app_assoc. reflexivity.
    + cbn [step]. rewrite Hstop. cbn [offered].
      apply (IH w Hq Hstop).
Qed.

(** C7.  A running worker whose next message is [Stop] clears its flag in
    that turn and [run] returns.  Whatever is pushed afterwards, and however
    often the thread is scheduled, the consumer's index does not move: the
    messages left in the queue stay there, followed by those of the later
    pushes that the queue accepted; the table and the output stay as they
    were. *)
Theorem stop_ends_consumption (w : ParamWorker) (s : Stop)
    (es : list event) (fuel : nat) :
  SPSC.wf log2_capacity (q_ w) ->
  running_ w = true ->
  fst (try_pop (q_ w)) = Some (Msg_Stop s) ->
  let w1 := step w worker_turn in
  let w2 := run_events es w1 in
  running_ w1 = false /\
  run (S fuel) w = Some w1 /\
  running_ w2 = false /\
  table_ w2 = table_ w1 /\
  cout w2 = cout w1 /\
  SPSC.tail_ (q_ w2) = SPSC.tail_ (q_ w1) /\
  exists accepted : list Msg,
    accepted `sublist_of` offered es /\
    unconsumed w2 = unconsumed w1 ++ accepted.
Proof.
  intros Hq Hrun Hpop w1 w2.
  assert (Hw1 : w1 = {| q_ := snd (try_pop (q_ w)); table_ := table_ w;
                        running_ := false; cout := cout w |}).
  { unfold w1. cbn [step]. rewrite Hrun, (run_iteration_pop w _ Hpop).
    reflexivity. }
  assert (Hstop : running_ w1 = false) by (rewrite Hw1; reflexivity).
  assert (Hq1 : SPSC.wf log2_capacity (q_ w1)).
  { rewrite Hw1. cbn [q_].
    apply (SPSC.wf_try_pop Msg_default log2_capacity capacity_fits), Hq. }
  split; [exact Hstop|]. split.
  - cbn [run]. rewrite Hrun.
    replace (run_iteration w) with w1
      by (unfold w1; cbn [step]; rewrite Hrun; reflexivity).
    destruct fuel; cbn [run]; rewrite Hstop; reflexivity.
  - destruct (stopped_run_events es w1 Hq1 Hstop) as (_ & H).
    exact H.
Qed.

(** *** The contract on the messages of [main] *)


(** The run of [main] in which the producer is done before the worker
    starts to drain the queue. *)
Example main_run :
  let w := run_events (map producer_push main_messages
                       ++ repeat worker_turn 5) (start fresh) in
  print (table_ fresh)
  = ("Params { Tset=37.50, HighAlarm=80.00, FanDuty=50.00% }" ++ newline)%string /\
  running_ w = false /\
  cout w = ("[Reject] FanDutyCycle value" ++ newline)%string /\
  print (table_ w)
  = ("Params { Tset=37.50, HighAlarm=90.00, FanDuty=45.00% }" ++ newline)%string.
Proof. vm_compute. repeat split. Qed.

Lemma worker_applies_or_rejects_witness :
  let v := make ParameterID.FanDutyCycle (literal 200 0) in
  let w := step (start fresh)
             (producer_push (SetParam_msg ParameterID.FanDutyCycle v)) in
  running_ w = true /\
  fst (try_pop (q_ w)) = Some (SetParam_msg ParameterID.FanDutyCycle v) /\
  running_ (step w worker_turn) = true.
Proof.
  split; [reflexivity|]. split; [reflexivity|].
  apply (worker_applies_or_rejects ParameterID.FanDutyCycle
           (make ParameterID.FanDutyCycle (literal 200 0))
           (step (start fresh)
              (producer_push (SetParam_msg ParameterID.FanDutyCycle
                 (make ParameterID.FanDutyCycle (literal 200 0)))))).
  - reflexivity.
  - reflexivity.
Defined.

Lemma stop_ends_consumption_witness :
  let w := step (start fresh) (producer_push (Msg_Stop Stop_)) in
  SPSC.wf log2_capacity (q_ w) /\
  running_ w = true /\
  fst (try_pop (q_ w)) = Some (Msg_Stop Stop_) /\
  running_ (step w worker_turn) = false.
Proof.
  assert (Hq : SPSC.wf log2_capacity
                 (q_ (step (start fresh) (producer_push (Msg_Stop Stop_))))).
  { apply (SPSC.wf_try_push log2_capacity capacity_fits).
    apply (SPSC.wf_empty Msg_default log2_capacity capacity_fits). }
  split; [exact Hq|]. split; [reflexivity|]. split; [reflexivity|].
  apply (stop_ends_consumption
           (step (start fresh) (producer_push (Msg_Stop Stop_))) Stop_
           [producer_push (Msg_Stop Stop_); worker_turn] 0 Hq);
    reflexivity.
Defined.

End Worker.

(** ** The queue against a bounded list

    Arbitrary runs of pushes and pops, wrap-around of the indices
    included, compared with a list that holds at most a given number of
    items. *)

Module SPSCModel.

Import SPSC.

Local Open Scope Z_scope.

(** [static_assert((CapacityPow2 & (CapacityPow2 - 1)) == 0, ...)] for an
    arbitrary template argument [c] of type [std::size_t]. *)
Definition static_assert_ok (c : Z) : bool :=
  Z.land c (size_t (c - 1)) =? 0.

Section Refinement.
Context {T : Type}.
Variable dflt : T.
Variable k : nat.

(** One call on the queue, by the producer or by the consumer. *)
Inductive op : Type :=
| Push (v : T)
| Pop.

(** What the call returns. *)
Inductive result : Type :=
| Pushed (ok : bool)
| Popped (item : option T).

Definition apply_op (o : op) (q : queue) : result * queue :=
  match o with
  | Push v => let '(ok, q') := try_push k v q in (Pushed ok, q')
  | Pop => let '(item, q') := try_pop dflt k q in (Popped item, q')
  end.

Fixpoint run_ops (ops : list op) (q : queue) : list result * queue :=
  match ops with
  | [] => ([], q)
  | o :: rest =>
      let '(r, q1) := apply_op o q in
      let '(rs, q2) := run_ops rest q1 in
      (r :: rs, q2)
  end.

(** The reference: a list, oldest item first, that takes a new item only
    while it holds fewer than [cap]. *)
Definition fifo_apply (cap : Z) (o : op) (l : list T) : result * list T :=
  match o with
  | Push v =>
      if Z.of_nat (length l) <? cap then (Pushed true, l ++ [v])
      else (Pushed false, l)
  | Pop =>
      match l with
      | [] => (Popped None, [])
      | x :: rest => (Popped (Some x), rest)
      end
  end.

Fixpoint fifo_run (cap : Z) (ops : list op) (l : list T)
    : list result * list T :=
  match ops with
  | [] => ([], l)
  | o :: rest =>
      let '(r, l1) := fifo_apply cap o l in
      let '(rs, l2) := fifo_run cap rest l1 in
      (r :: rs, l2)
  end.

Hypothesis k_fits : (k < 64)%nat.

Lemma apply_op_refines (o : op) (q : queue) :
  wf k q ->
  fst (apply_op o q) = fst (fifo_apply (CapacityPow2 k - 1) o (contents dflt k q)) /\
  contents dflt k (snd (apply_op o q))
  = snd (fifo_apply (CapacityPow2 k - 1) o (contents dflt k q)) /\
  wf k (snd (apply_op o q)).
Proof.
  intros Hq. destruct o as [v|]; cbn [apply_op fifo_apply].
  - pose proof (wf_try_push k k_fits v q Hq) as Hw.
    pose proof (try_push_result k v q) as Hr.
    pose proof (pending_lt k k_fits q Hq) as Hp.
    rewrite (length_contents dflt k q).
    destruct (is_full k q) eqn:Hfull.
    + pose proof (proj1 (is_full_pending k k_fits q Hq) Hfull) as Hn.
      rewrite (try_push_full k v q Hfull) in *. cbn [fst snd].
      destruct (Z.ltb_spec (Z.of_nat (pending k q)) (CapacityPow2 k - 1)); [lia|].
      auto.
    + pose proof (contents_try_push dflt k k_fits v q Hq Hfull) as Hc.
      assert (Hn : Z.of_nat (pending k q) <> CapacityPow2 k - 1).
      { intros E. apply (is_full_pending k k_fits q Hq) in E. congruence. }
      destruct (try_push k v q) as [ok q']; cbn [fst snd] in *. subst ok.
      destruct (Z.ltb_spec (Z.of_nat (pending k q)) (CapacityPow2 k - 1)); [|lia].
      auto.
  - pose proof (wf_try_pop dflt k k_fits q Hq) as Hw.
    pose proof (try_pop_contents dflt k k_fits q Hq) as Hpop.
    destruct (contents dflt k q) as [|x rest] eqn:Hc.
    + rewrite Hpop in *. cbn [fst snd]. rewrite Hc. auto.
    + destruct Hpop as [Hx Hrest].
      destruct (try_pop dflt k q) as [item q']; cbn [fst snd] in *.
      subst item. auto.
Qed.

Lemma run_ops_refines (ops : list op) (q : queue) :
  wf k q ->
  fst (run_ops ops q) = fst (fifo_run (CapacityPow2 k - 1) ops (contents dflt k q)) /\
  contents dflt k (snd (run_ops ops q))
  = snd (fifo_run (CapacityPow2 k - 1) ops (contents dflt k q)) /\
  wf k (snd (run_ops ops q)).
Proof.
  revert q. induction ops as [|o rest IH]; intros q Hq; cbn [run_ops fifo_run].
  - auto.
  - destruct (apply_op_refines o q Hq) as (Hr & Hc & Hw).
    destruct (apply_op o q) as [r q1]; cbn [fst snd] in *.
    destruct (fifo_apply (CapacityPow2 k - 1) o (contents dflt k q)) as [r' l1];
      cbn [fst snd] in *. subst r' l1.
    destruct (IH q1 Hw) as (IHr & IHc & IHw).
    destruct (run_ops rest q1) as [rs q2]; cbn [fst snd] in *.
    destruct (fifo_run (CapacityPow2 k - 1) rest (contents dflt k q1)) as [rs' l2];
      cbn [fst snd] in *. subst rs' l2. auto.
Qed.

(** X1.  [try_pop] returns no item exactly when nothing is pending, and then
    it leaves the queue as it is; otherwise it returns the oldest pending
    item and removes that one only, without touching the buffer or the
    producer's index. *)
Theorem try_pop_oldest_or_nothing (q : queue) :
  wf k q ->
  (fst (try_pop dflt k q) = None <-> contents dflt k q = []) /\
  (contents dflt k q = [] -> try_pop dflt k q = (None, q)) /\
  (forall x rest, contents dflt k q = x :: rest ->
     fst (try_pop dflt k q) = Some x /\
     contents dflt k (snd (try_pop dflt k q)) = rest) /\
  buf_ (snd (try_pop dflt k q)) = buf_ q /\
  head_ (snd (try_pop dflt k q)) = head_ q.
Proof.
  intros Hq. pose proof (try_pop_contents dflt k k_fits q Hq) as Hpop.
  assert (Hsame : buf_ (snd (try_pop dflt k q)) = buf_ q /\
                  head_ (snd (try_pop dflt k q)) = head_ q).
  { unfold try_pop. destruct (tail_ q =? head_ q); auto. }
  destruct (contents dflt k q) as [|x rest].
  - rewrite Hpop. cbn [fst snd]. repeat split; auto; discriminate.
  - destruct Hpop as [Hx Hrest]. rewrite Hx.
    split; [split; discriminate|]. split; [discriminate|].
    split; [|exact Hsame]. intros x' rest' [= <- <-]. auto.
Qed.

(** X2.  Any run of pushes and pops on a fresh queue returns, call by call,
    what the same run returns on a list bounded by [CapacityPow2 - 1]
    items, and the pending items at the end are that list: the ring buffer
    is a FIFO of that capacity however often its indices wrap around. *)
Theorem ring_buffer_is_bounded_fifo (ops : list op) :
  fst (run_ops ops (empty dflt k)) = fst (fifo_run (CapacityPow2 k - 1) ops []) /\
  contents dflt k (snd (run_ops ops (empty dflt k)))
  = snd (fifo_run (CapacityPow2 k - 1) ops []).
Proof.
  destruct (run_ops_refines ops (empty dflt k) (wf_empty dflt k k_fits))
    as (Hr & Hc & _).
  rewrite (contents_empty dflt k k_fits) in Hr, Hc. auto.
Qed.

(** X3.  In every state reachable from a fresh queue the array has
    [CapacityPow2] elements and both indices are indices of the array: the
    accesses [buf_[head]] and [buf_[tail]] are never out of bounds. *)
Theorem indices_stay_in_bounds (q : queue) :
  reachable dflt k q ->
  length (buf_ q) = Z.to_nat (CapacityPow2 k) /\
  0 <= head_ q /\ (Z.to_nat (head_ q) < length (buf_ q))%nat /\
  0 <= tail_ q /\ (Z.to_nat (tail_ q) < length (buf_ q))%nat.
Proof.
  intros Hr. destruct (reachable_wf dflt k k_fits q Hr) as (Hl & Hh & Ht).
  rewrite Hl. repeat split; lia.
Qed.

End Refinement.

(** *** The compile-time check *)

Lemma land_pred_pow2 (n : Z) : 0 <= n -> Z.land (2 ^ n) (2 ^ n - 1) = 0.
Proof.
  intros Hn. replace (2 ^ n - 1) with (Z.ones n) by (rewrite Z.ones_equiv; lia).
  rewrite Z.land_ones by lia. apply Z.mod_same.
  pose proof (Z.pow_pos_nonneg 2 n); lia.
Qed.

Lemma land_pred_not_pow2 (c : Z) :
  0 < c -> c <> 2 ^ Z.log2 c -> Z.land c (c - 1) <> 0.
Proof.
  intros Hc Hne E.
  assert (Hc1 : c <> 1) by (intros ->; apply Hne; reflexivity).
  pose proof (Z.log2_spec c Hc) as [Hlo Hhi].
  assert (Hlog : Z.log2 (c - 1) = Z.log2 c).
  { apply Z.log2_unique; [apply Z.log2_nonneg|]. lia. }
  assert (Hbit : Z.testbit (Z.land c (c - 1)) (Z.log2 c) = true).
  { rewrite Z.land_spec, (Z.bit_log2 c Hc).
    rewrite <- Hlog, Z.bit_log2 by lia. reflexivity. }
  rewrite E, Z.bits_0 in Hbit. discriminate.
Qed.

(** X4.  For a template argument that fits [std::size_t], the
    [static_assert] of the class passes exactly for the powers of two and
    for zero. *)
Theorem static_assert_accepts (c : Z) :
  0 <= c < 2 ^ 64 ->
  static_assert_ok c = true <->
  c = 0 \/ exists n : Z, 0 <= n < 64 /\ c = 2 ^ n.
Proof.
  intros Hc. unfold static_assert_ok. rewrite Z.eqb_eq.
  destruct (Z.eq_dec c 0) as [->|Hnz]; [split; [auto|reflexivity]|].
  unfold size_t, size_t_max. rewrite Z.mod_small by lia.
  assert (Hpos : 0 < c) by lia.
  pose proof (Z.log2_spec c Hpos) as [Hlo Hhi].
  pose proof (Z.log2_nonneg c) as Hl0.
  split.
  - intros E. right. exists (Z.log2 c). split.
    + split; [assumption|]. apply (Z.pow_lt_mono_r_iff 2); lia.
    + destruct (Z.eq_dec c (2 ^ Z.log2 c)) as [E'|Hne]; [exact E'|].
      exfalso. exact (land_pred_not_pow2 c Hpos Hne E).
  - intros [E|(n & Hn & ->)]; [contradiction|].
    apply land_pred_pow2. lia.
Qed.

(** The properties on a queue of four slots, and on sample capacities. *)

Lemma try_pop_oldest_or_nothing_witness :
  wf 2 (empty 0%nat 2) /\
  try_pop 0%nat 2 (empty 0%nat 2) = (None, empty 0%nat 2).
Proof.
  split; [apply wf_empty; lia|].
  apply (try_pop_oldest_or_nothing 0%nat 2 ltac:(lia) (empty 0%nat 2)).
  - apply wf_empty; lia.
  - reflexivity.
Defined.

Lemma ring_buffer_is_bounded_fifo_witness :
  let ops := [Push 1; Push 2; Pop; Push 3; Push 4; Push 5; Pop; Pop; Push 6;
              Pop; Pop; Pop]%nat in
  fst (run_ops 0%nat 2 ops (empty 0%nat 2))
  = fst (fifo_run (CapacityPow2 2 - 1) ops []).
Proof.
  apply (ring_buffer_is_bounded_fifo 0%nat 2 ltac:(lia)).
Defined.

Lemma indices_stay_in_bounds_witness :
  reachable 0%nat 2 (snd (try_push 2 7%nat (empty 0%nat 2))) /\
  (Z.to_nat (head_ (snd (try_push 2 7%nat (empty 0%nat 2))))
   < length (buf_ (snd (try_push 2 7%nat (empty 0%nat 2)))))%nat.
Proof.
  split; [apply reach_push, reach_empty|].
  apply (indices_stay_in_bounds 0%nat 2 ltac:(lia)).
  apply reach_push, reach_empty.
Defined.

Lemma static_assert_accepts_witness :
  0 <= 1024 < 2 ^ 64 /\
  (static_assert_ok 1024 = true <->
   1024 = 0 \/ exists n : Z, 0 <= n < 64 /\ 1024 = 2 ^ n).
Proof.
  split; [lia|]. apply (static_assert_accepts 1024). lia.
Defined.

End SPSCModel.

(** ** More on [serialize] and [parse] *)

Module TraitsFacts.

Import Float32 LibC Detail Traits.

Local Open Scope string_scope.
Local Open Scope Z_scope.

Lemma length_append (s1 s2 : string) :
  String.length (s1 ++ s2) = (String.length s1 + String.length s2)%nat.
Proof. induction s1 as [|c s1 IH]; simpl; [reflexivity|]. rewrite IH. reflexivity. Qed.



(** Whatever the value, [%.2f] produces at least one character. *)
Lemma fmt_2f_nonempty (x : float) : (0 < String.length (fmt_2f x))%nat.
Proof.
  assert (Hfixed : forall neg h, (0 < String.length (fixed2 neg h))%nat).
  { intros neg h. unfold fixed2. rewrite !length_append. simpl. lia. }
  destruct x as [s|[|]| |s m e]; simpl; try lia; apply Hfixed.
Qed.



Lemma parse_success_validates (id : ParameterID.t) (inp : option string)
    (out : tag id) :
  fst (parse_of id inp out) = true ->
  validate_of id (snd (parse_of id inp out)) = true.
Proof.
  rewrite parse_of_unfold.
  destruct (parse_float inp (literal 0 0)) as [[|] v]; cbn [negb fst snd];
    [auto|discriminate].
Qed.

(** X7.  When [parse] succeeds, the value it stores passes [validate], is
    the number [parse_float] read and is neither a NaN nor an infinity; what
    [out] held before plays no part. *)
Theorem parse_success_is_valid (id : ParameterID.t) (inp : option string)
    (out out' : tag id) :
  fst (parse_of id inp out) = true ->
  validate_of id (snd (parse_of id inp out)) = true /\
  is_finite (field (snd (parse_of id inp out))) = true /\
  parse_float inp (literal 0 0) = (true, field (snd (parse_of id inp out))) /\
  parse_of id inp out' = parse_of id inp out.
Proof.
  rewrite !parse_of_unfold.
  destruct (parse_float inp (literal 0 0)) as [[|] v]; cbn [negb fst snd];
    [|discriminate].
  intros Hv. rewrite field_make. repeat split; try assumption.
  destruct id; cbn in Hv;
    apply andb_true_iff in Hv; destruct Hv as [Hge Hle];
    destruct v as [s|[|]| |s m e]; try reflexivity; discriminate.
Qed.

Example serialize_truncates_default :
  serialize_of ParameterID.TemperatureSetpoint
    (default_of ParameterID.TemperatureSetpoint) "old" 3 = (0, "37").
Proof. reflexivity. Qed.


Lemma parse_success_is_valid_witness :
  let out := default_of ParameterID.FanDutyCycle in
  fst (parse_of ParameterID.FanDutyCycle (Some " +45.5%") out) = true /\
  validate_of ParameterID.FanDutyCycle
    (snd (parse_of ParameterID.FanDutyCycle (Some " +45.5%") out)) = true.
Proof.
  split; [reflexivity|].
  apply (parse_success_is_valid ParameterID.FanDutyCycle (Some " +45.5%")
           (default_of ParameterID.FanDutyCycle)
           (default_of ParameterID.FanDutyCycle)).
  reflexivity.
Defined.

End TraitsFacts.

(** ** What [parse_float] accepts *)

Module Parsing.

Import Float32 LibC Detail.

Local Open Scope string_scope.
Local Open Scope Z_scope.

(** The parts of [from_chars] and [strtof], named: the sign each takes off
    and the constant each looks for behind it. *)
Definition from_chars_sign (s : string) : bool * string :=
  match s with
  | String "-" r => (true, r)
  | _ => (false, s)
  end.

Definition strtof_sign (s : string) : bool * string :=
  match s with
  | String "-" r => (true, r)
  | String "+" r => (false, r)
  | _ => (false, s)
  end.

Definition from_chars_scan (body : string) : option (number * string) :=
  match scan_special body with
  | Some r => Some r
  | None => scan_decimal body
  end.

Definition strtof_scan (body : string) : option (number * string) :=
  match scan_special body with
  | Some r => Some r
  | None =>
      match match prefix_ci "0x" body with
            | Some r => scan_hex r
            | None => None
            end with
      | Some r => Some r
      | None => scan_decimal body
      end
  end.

Ltac ascii_cases c := destruct c as [[] [] [] [] [] [] [] []].

Lemma from_chars_unfold (s : string) (value : float) :
  from_chars s value =
  match from_chars_scan (snd (from_chars_sign s)) with
  | None => ({| ptr := 0; ec := invalid_argument |}, value)
  | Some (x, rest) =>
      if out_of_range x
      then ({| ptr := consumed s rest; ec := result_out_of_range |}, value)
      else ({| ptr := consumed s rest; ec := errc_none |},
            to_float (fst (from_chars_sign s)) x)
  end.
Proof.
  unfold from_chars, from_chars_scan, from_chars_sign.
  destruct s as [|c r]; [reflexivity|]. ascii_cases c; reflexivity.
Qed.

Lemma strtof_unfold (s : string) :
  strtof s =
  match strtof_scan (snd (strtof_sign (skip_spaces s))) with
  | None => (S754_zero false, 0)
  | Some (x, rest) =>
      (to_float (fst (strtof_sign (skip_spaces s))) x, consumed s rest)
  end.
Proof.
  unfold strtof, strtof_scan, strtof_sign.
  destruct (skip_spaces s) as [|c r]; [reflexivity|].
  ascii_cases c; reflexivity.
Qed.

(** *** How much the scanners consume *)

Lemma scan_digits_length base dig s acc cnt :
  (String.length (snd (scan_digits base dig s acc cnt)) <= String.length s)%nat /\
  snd (fst (scan_digits base dig s acc cnt)) - cnt
  = Z.of_nat (String.length s)
    - Z.of_nat (String.length (snd (scan_digits base dig s acc cnt))).
Proof.
  revert acc cnt. induction s as [|c s IH]; intros acc cnt; simpl.
  - lia.
  - destruct (dig c) as [d|]; simpl; [|lia].
    specialize (IH (acc * base + d) (cnt + 1)). lia.
Qed.

Lemma scan_significand_length base dig s m fd r :
  scan_significand base dig s = Some (m, fd, r) ->
  (String.length r < String.length s)%nat.
Proof.
  unfold scan_significand.
  pose proof (scan_digits_length base dig s 0 0) as H1.
  destruct (scan_digits base dig s 0 0) as [[m1 n1] r1]. cbn [fst snd] in H1.
  assert (Hdone : (if n1 =? 0 then None else Some (m1, 0, r1)) = Some (m, fd, r) ->
                  (String.length r < String.length s)%nat).
  { destruct (Z.eqb_spec n1 0); [discriminate|]. intros [= <- <- <-]. lia. }
  destruct r1 as [|c r2]; [exact Hdone|].
  ascii_cases c; try exact Hdone.
  pose proof (scan_digits_length base dig r2 m1 0) as H2.
  destruct (scan_digits base dig r2 m1 0) as [[m2 n2] r3]. cbn [fst snd] in H2.
  destruct (Z.eqb_spec (n1 + n2) 0); [discriminate|].
  intros [= <- <- <-]. simpl in H1. lia.
Qed.

Lemma scan_exponent_length marker s :
  (String.length (snd (scan_exponent marker s)) <= String.length s)%nat.
Proof.
  unfold scan_exponent. destruct s as [|c r]; [simpl; lia|].
  destruct (Ascii.eqb (tolower c) marker); [|simpl; lia].
  assert (Hafter : forall (sg : Z) r1,
            (String.length r1 <= String.length r)%nat ->
            (String.length
               (snd (let '(e, n, r2) := scan_digits 10 digit r1 0%Z 0%Z in
                     if (n =? 0)%Z then (0%Z, String c r)
                     else ((sg * e)%Z, r2)))
             <= String.length (String c r))%nat).
  { intros sg r1 Hr1. pose proof (scan_digits_length 10 digit r1 0 0) as H.
    destruct (scan_digits 10 digit r1 0 0) as [[e n] r2]. cbn [fst snd] in H.
    destruct (n =? 0); simpl in *; lia. }
  destruct r as [|c2 r']; [apply Hafter; simpl; lia|].
  ascii_cases c2; apply Hafter; simpl; lia.
Qed.

Lemma prefix_ci_length p s r :
  prefix_ci p s = Some r ->
  String.length s = (String.length p + String.length r)%nat.
Proof.
  revert s. induction p as [|a p IH]; intros s; simpl.
  - intros [= ->]. reflexivity.
  - destruct s as [|c s']; [discriminate|].
    destruct (Ascii.eqb (tolower c) a); [|discriminate].
    intros H. apply IH in H. simpl. lia.
Qed.

Lemma skip_nchars_length s :
  (String.length (skip_nchars s) <= String.length s)%nat.
Proof.
  induction s as [|c s IH]; simpl; [lia|].
  destruct (nchar c); simpl; lia.
Qed.

Lemma scan_special_length s x r :
  scan_special s = Some (x, r) -> (String.length r < String.length s)%nat.
Proof.
  unfold scan_special.
  destruct (prefix_ci "inf" s) as [r1|] eqn:Hinf.
  - apply prefix_ci_length in Hinf. simpl in Hinf.
    destruct (prefix_ci "inity" r1) as [r2|] eqn:Hity.
    + apply prefix_ci_length in Hity. intros [= <- <-]. lia.
    + intros [= <- <-]. lia.
  - destruct (prefix_ci "nan" s) as [r1|] eqn:Hnan; [|discriminate].
    apply prefix_ci_length in Hnan. simpl in Hnan.
    assert (Hplain : Some (NaN, r1) = Some (x, r) ->
                     (String.length r < String.length s)%nat)
      by (intros [= <- <-]; lia).
    destruct r1 as [|c r2]; [exact Hplain|].
    ascii_cases c; try exact Hplain.
    pose proof (skip_nchars_length r2) as Hskip.
    destruct (skip_nchars r2) as [|c2 r3]; [exact Hplain|].
    ascii_cases c2; try exact Hplain.
    intros [= <- <-]. simpl in *. lia.
Qed.

Lemma scan_decimal_length s x r :
  scan_decimal s = Some (x, r) -> (String.length r < String.length s)%nat.
Proof.
  unfold scan_decimal.
  destruct (scan_significand 10 digit s) as [[[m fd] r1]|] eqn:Hs; [|discriminate].
  apply scan_significand_length in Hs.
  pose proof (scan_exponent_length "e" r1) as He.
  destruct (scan_exponent "e" r1) as [ex r2]. cbn [snd] in He.
  intros [= <- <-]. lia.
Qed.

Lemma scan_hex_length s x r :
  scan_hex s = Some (x, r) -> (String.length r < String.length s)%nat.
Proof.
  unfold scan_hex.
  destruct (scan_significand 16 xdigit s) as [[[m fd] r1]|] eqn:Hs; [|discriminate].
  apply scan_significand_length in Hs.
  pose proof (scan_exponent_length "p" r1) as He.
  destruct (scan_exponent "p" r1) as [ex r2]. cbn [snd] in He.
  intros [= <- <-]. lia.
Qed.

Lemma from_chars_scan_length body x r :
  from_chars_scan body = Some (x, r) ->
  (String.length r < String.length body)%nat.
Proof.
  unfold from_chars_scan.
  destruct (scan_special body) as [[x1 r1]|] eqn:Hsp.
  - intros [= <- <-]. exact (scan_special_length _ _ _ Hsp).
  - apply scan_decimal_length.
Qed.

Lemma strtof_scan_length body x r :
  strtof_scan body = Some (x, r) ->
  (String.length r < String.length body)%nat.
Proof.
  unfold strtof_scan.
  destruct (scan_special body) as [[x1 r1]|] eqn:Hsp.
  - intros [= <- <-]. exact (scan_special_length _ _ _ Hsp).
  - destruct (prefix_ci "0x" body) as [r0|] eqn:Hx.
    + apply prefix_ci_length in Hx. simpl in Hx.
      destruct (scan_hex r0) as [[x1 r1]|] eqn:Hh.
      * intros [= <- <-]. apply scan_hex_length in Hh. lia.
      * apply scan_decimal_length.
    + apply scan_decimal_length.
Qed.

Lemma from_chars_sign_length s :
  (String.length (snd (from_chars_sign s)) <= String.length s)%nat.
Proof.
  destruct s as [|c r]; [simpl; lia|]. ascii_cases c; simpl; lia.
Qed.

Lemma strtof_sign_length s :
  (String.length (snd (strtof_sign s)) <= String.length s)%nat.
Proof.
  destruct s as [|c r]; [simpl; lia|]. ascii_cases c; simpl; lia.
Qed.

Lemma skip_spaces_length s :
  (String.length (skip_spaces s) <= String.length s)%nat.
Proof.
  induction s as [|c s IH]; simpl; [lia|].
  destruct (isspace c); simpl; lia.
Qed.

(** *** What [from_chars] accepts, [strtof] accepts *)

(** Behind a space or a plus sign [from_chars] finds no number. *)
Lemma from_chars_scan_first c r :
  isspace c || Ascii.eqb c "+" = true ->
  from_chars_scan (String c r) = None.
Proof.
  ascii_cases c; intros H; vm_compute in H; try discriminate H; reflexivity.
Qed.

Lemma signs_agree c r :
  isspace c || Ascii.eqb c "+" = false ->
  strtof_sign (skip_spaces (String c r)) = from_chars_sign (String c r).
Proof.
  ascii_cases c; intros H; vm_compute in H; try discriminate H; reflexivity.
Qed.

Lemma strtof_scan_accepts body :
  from_chars_scan body <> None -> strtof_scan body <> None.
Proof.
  unfold from_chars_scan, strtof_scan.
  destruct (scan_special body); [discriminate|].
  destruct (prefix_ci "0x" body) as [r0|]; [|auto].
  destruct (scan_hex r0); [discriminate|auto].
Qed.

Lemma from_chars_accepted_by_strtof (s : string) :
  from_chars_scan (snd (from_chars_sign s)) <> None ->
  strtof_scan (snd (strtof_sign (skip_spaces s))) <> None.
Proof.
  destruct s as [|c r].
  - intros H. exfalso. apply H. reflexivity.
  - destruct (isspace c || Ascii.eqb c "+") eqn:Hc.
    + intros H. exfalso. apply H.
      replace (from_chars_sign (String c r)) with (false, String c r).
      * apply from_chars_scan_first. exact Hc.
      * revert Hc. clear. ascii_cases c; intros Hc; vm_compute in Hc;
          try discriminate Hc; reflexivity.
    + rewrite (signs_agree c r Hc). apply strtof_scan_accepts.
Qed.

Lemma strtof_consumed (s : string) :
  snd (strtof s) <> 0 <->
  strtof_scan (snd (strtof_sign (skip_spaces s))) <> None.
Proof.
  rewrite strtof_unfold.
  destruct (strtof_scan (snd (strtof_sign (skip_spaces s)))) as [[x rest]|] eqn:Hs.
  - cbn [snd]. apply strtof_scan_length in Hs.
    pose proof (strtof_sign_length (skip_spaces s)).
    pose proof (skip_spaces_length s).
    unfold consumed. split; [discriminate|lia].
  - cbn [snd]. split; intros H; exfalso; apply H; reflexivity.
Qed.

Lemma from_chars_result (s : string) (out : float) :
  match ec (fst (from_chars s out)) with
  | errc_none =>
      ptr (fst (from_chars s out)) <> 0 /\
      from_chars_scan (snd (from_chars_sign s)) <> None
  | _ => snd (from_chars s out) = out
  end.
Proof.
  rewrite from_chars_unfold.
  destruct (from_chars_scan (snd (from_chars_sign s))) as [[x rest]|] eqn:Hs.
  - destruct (out_of_range x); cbn [fst snd ec ptr]; [reflexivity|].
    apply from_chars_scan_length in Hs.
    pose proof (from_chars_sign_length s).
    unfold consumed. split; [lia|discriminate].
  - reflexivity.
Qed.

(** X8.  [parse_float] succeeds on exactly the texts of which [strtof]
    converts a prefix: whatever [from_chars] accepts [strtof] accepts too,
    and the fallback lets in what only [strtof] reads (leading white space,
    a plus sign, a hexadecimal constant).  When [strtof] converts nothing
    the call fails and [out] keeps its value. *)
Theorem parse_float_accepts_what_strtof_does (s : string) (out : float) :
  (fst (parse_float (Some s) out) = true <-> snd (strtof s) <> 0) /\
  (snd (strtof s) = 0 -> parse_float (Some s) out = (false, out)).
Proof.
  assert (Hfwd : fst (parse_float (Some s) out) = true -> snd (strtof s) <> 0).
  { unfold parse_float. pose proof (from_chars_result s out) as Hfc.
    destruct (from_chars s out) as [r out1]. cbn [fst snd] in Hfc.
    destruct (ec r).
    - destruct Hfc as [Hptr Hscan]. intros _.
      apply strtof_consumed, from_chars_accepted_by_strtof, Hscan.
    - cbn [andb]. destruct (strtof s) as [v e]. cbn [snd].
      destruct (Z.eqb_spec e 0); [discriminate|auto].
    - cbn [andb]. destruct (strtof s) as [v e]. cbn [snd].
      destruct (Z.eqb_spec e 0); [discriminate|auto]. }
  split; [split; [exact Hfwd|]|].
  - intros Hne. unfold parse_float.
    destruct (from_chars s out) as [r out1].
    destruct (_ && _); [reflexivity|].
    destruct (strtof s) as [v e]. cbn [snd] in Hne.
    destruct (Z.eqb_spec e 0); [contradiction|reflexivity].
  - intros H0.
    assert (Hfail : fst (parse_float (Some s) out) = false).
    { destruct (fst (parse_float (Some s) out)) eqn:E; [|reflexivity].
      exfalso. exact (Hfwd eq_refl H0). }
    revert Hfail. unfold parse_float.
    pose proof (from_chars_result s out) as Hfc.
    destruct (from_chars s out) as [r out1]. cbn [fst snd] in Hfc.
    destruct (ec r).
    + destruct Hfc as [Hptr _].
      destruct (Z.eqb_spec (ptr r) 0); [contradiction|]. discriminate.
    + cbn [andb]. subst out1. destruct (strtof s) as [v e].
      destruct (e =? 0); [reflexivity|discriminate].
    + cbn [andb]. subst out1. destruct (strtof s) as [v e].
      destruct (e =? 0); [reflexivity|discriminate].
Qed.

End Parsing.

(** ** The type-erased handlers and the registry *)

Module Registry.

Import Float32 LibC Detail Traits.

Local Open Scope string_scope.
Local Open Scope Z_scope.

(** What the [void*] argument of a handler points to.  Every parameter
    type is a struct of one [float]; the pointee is modelled by that float,
    and the cast [static_cast<T*>(p)] by reading it as the field of [T]. *)
Definition storage : Type := float.

Class Erased (T : Type) : Type := {
  sizeof : Z;
  load : storage -> T;
  store : T -> storage
}.

#[export] Instance TemperatureSetpoint_erased : Erased TemperatureSetpoint := {|
  sizeof := 4;
  load p := {| value := p |};
  store := value
|}.

#[export] Instance HighTemperatureAlarm_erased : Erased HighTemperatureAlarm := {|
  sizeof := 4;
  load p := {| threshold := p |};
  store := threshold
|}.

#[export] Instance FanDutyCycle_erased : Erased FanDutyCycle := {|
  sizeof := 4;
  load p := {| percent := p |};
  store := percent
|}.

(** [struct Handler]; the members that write through a pointer return what
    it points to afterwards. *)
Record Handler : Type := {
  id : ParameterID.t;
  name : string;
  size : Z;
  validate : storage -> bool;
  parse : option string -> storage -> bool * storage;
  serialize : storage -> string -> Z -> Z * string
}.

(** [template <typename T> constexpr Handler makeHandler(ParameterID id)] *)
Definition makeHandler (T : Type) `{ParameterTraits T} `{Erased T}
    (id : ParameterID.t) : Handler := {|
  id := id;
  name := Traits.name;
  size := sizeof;
  validate p := Traits.validate (load p);
  parse inp p := let '(ok, x) := Traits.parse inp (load p) in (ok, store x);
  serialize p out n := Traits.serialize (load p) out n
|}.

Definition registry : list Handler := [
  makeHandler TemperatureSetpoint ParameterID.TemperatureSetpoint;
  makeHandler HighTemperatureAlarm ParameterID.HighTemperatureAlarm;
  makeHandler FanDutyCycle ParameterID.FanDutyCycle
].

Definition registryCount : nat := length registry.

(** The value of an enumerator in the underlying type [uint16_t]. *)
Definition underlying (k : ParameterID.t) : Z :=
  match k with
  | ParameterID.TemperatureSetpoint => 0
  | ParameterID.HighTemperatureAlarm => 1
  | ParameterID.FanDutyCycle => 2
  end.

(** [const Handler* find_by_id(ParameterID id)].  A [ParameterID] can hold
    any value of its underlying type, so the argument is that value; [None]
    is the null pointer. *)
Definition find_by_id (raw : Z) : option Handler :=
  List.find (fun h => underlying (id h) =? raw) registry.

(** [const Handler* find_by_name(std::string_view name)] *)
Definition find_by_name (text : string) : option Handler :=
  List.find (fun h => String.eqb text (name h)) registry.

(** *** Lookup *)

Lemma underlying_range (k : ParameterID.t) : 0 <= underlying k <= 2.
Proof. destruct k; simpl; lia. Qed.

Lemma find_by_id_declared (k : ParameterID.t) :
  exists h, find_by_id (underlying k) = Some h /\ id h = k /\ name h = name_of k.
Proof. destruct k; eexists; repeat split. Qed.

(** X9.  The registry has one handler per declared kind.  [find_by_id]
    finds, for each kind, a handler that carries the kind's identifier and
    name, and returns the null pointer for every other value of the
    underlying type. *)
Theorem find_by_id_total (raw : Z) :
  registryCount = 3%nat /\
  (forall k, exists h,
     find_by_id (underlying k) = Some h /\ id h = k /\ name h = name_of k) /\
  ((forall k, underlying k <> raw) <-> find_by_id raw = None).
Proof.
  split; [reflexivity|]. split; [exact find_by_id_declared|].
  split.
  - intros Hraw. unfold find_by_id, registry. cbn [List.find id makeHandler underlying].
    pose proof (Hraw ParameterID.TemperatureSetpoint) as H0.
    pose proof (Hraw ParameterID.HighTemperatureAlarm) as H1.
    pose proof (Hraw ParameterID.FanDutyCycle) as H2.
    cbn [underlying] in H0, H1, H2.
    destruct (Z.eqb_spec 0 raw); [congruence|].
    destruct (Z.eqb_spec 1 raw); [congruence|].
    destruct (Z.eqb_spec 2 raw); [congruence|]. reflexivity.
  - intros Hnone k Hk. subst raw.
    destruct (find_by_id_declared k) as (h & Hh & _). congruence.
Qed.

Lemma find_by_name_declared (k : ParameterID.t) :
  find_by_name (name_of k) = find_by_id (underlying k).
Proof. destruct k; reflexivity. Qed.

(** X10.  [find_by_name] compares whole names exactly: the name of a kind
    finds the handler [find_by_id] finds for that kind, a handler that is
    found carries the name asked for, and any other text finds nothing. *)
Theorem find_by_name_exact (text : string) :
  (forall k, find_by_name (name_of k) = find_by_id (underlying k)) /\
  (forall h, find_by_name text = Some h -> name h = text) /\
  ((forall k, name_of k <> text) <-> find_by_name text = None).
Proof.
  split; [exact find_by_name_declared|]. split.
  - intros h. unfold find_by_name. intros Hf.
    apply List.find_some in Hf. destruct Hf as [_ Heq].
    apply String.eqb_eq in Heq. congruence.
  - split.
    + intros Hne. unfold find_by_name, registry.
      cbn [List.find name makeHandler].
      pose proof (Hne ParameterID.TemperatureSetpoint) as H0.
      pose proof (Hne ParameterID.HighTemperatureAlarm) as H1.
      pose proof (Hne ParameterID.FanDutyCycle) as H2.
      destruct (String.eqb_spec text (@Traits.name _ TemperatureSetpoint_traits));
        [exfalso; apply H0; symmetry; assumption|].
      destruct (String.eqb_spec text (@Traits.name _ HighTemperatureAlarm_traits));
        [exfalso; apply H1; symmetry; assumption|].
      destruct (String.eqb_spec text (@Traits.name _ FanDutyCycle_traits));
        [exfalso; apply H2; symmetry; assumption|].
      reflexivity.
    + intros Hnone k Hk. subst text.
      rewrite find_by_name_declared in Hnone.
      destruct (find_by_id_declared k) as (h & Hh & _). congruence.
Qed.

(** *** Dispatch *)

Lemma handler_cases (h : Handler) :
  In h registry ->
  exists k, h = match k with
                | ParameterID.TemperatureSetpoint =>
                    makeHandler TemperatureSetpoint ParameterID.TemperatureSetpoint
                | ParameterID.HighTemperatureAlarm =>
                    makeHandler HighTemperatureAlarm ParameterID.HighTemperatureAlarm
                | ParameterID.FanDutyCycle =>
                    makeHandler FanDutyCycle ParameterID.FanDutyCycle
                end.
Proof.
  intros [<-|[<-|[<-|[]]]].
  - exists ParameterID.TemperatureSetpoint. reflexivity.
  - exists ParameterID.HighTemperatureAlarm. reflexivity.
  - exists ParameterID.FanDutyCycle. reflexivity.
Qed.

Lemma let_pair_map {A B C : Type} (f : B -> C) (pr : A * B) :
  (let '(ok, x) := pr in (ok, f x)) = (fst pr, f (snd pr)).
Proof. destruct pr; reflexivity. Qed.

Lemma handler_dispatch (h : Handler) :
  In h registry ->
  forall (p : storage) (inp : option string) (out : string) (n : Z),
    validate h p = validate_of (id h) (make (id h) p) /\
    parse h inp p
    = (fst (parse_of (id h) inp (make (id h) p)),
       field (snd (parse_of (id h) inp (make (id h) p)))) /\
    serialize h p out n = serialize_of (id h) (make (id h) p) out n.
Proof.
  intros Hin p inp out n. destruct (handler_cases h Hin) as [k ->].
  destruct k; cbn [id validate parse serialize makeHandler make load store];
    unfold validate_of, parse_of, serialize_of, param_validate, param_parse,
      param_serialize; cbn [traits];
    (split; [reflexivity|]); (split; [|reflexivity]).
  - exact (let_pair_map value (TemperatureSetpointTraits.parse inp {| value := p |})).
  - exact (let_pair_map threshold
             (HighTemperatureAlarmTraits.parse inp {| threshold := p |})).
  - exact (let_pair_map percent (FanDutyCycleTraits.parse inp {| percent := p |})).
Qed.

(** X11.  Every handler of the registry does what the traits of its own
    kind do on the same float: [validate], [parse] and [serialize] through
    the untyped pointer agree with the typed functions. *)
Theorem erased_dispatch_agrees (h : Handler) (p : storage)
    (inp : option string) (out : string) (n : Z) :
  In h registry ->
  validate h p = validate_of (id h) (make (id h) p) /\
  parse h inp p
  = (fst (parse_of (id h) inp (make (id h) p)),
     field (snd (parse_of (id h) inp (make (id h) p)))) /\
  serialize h p out n = serialize_of (id h) (make (id h) p) out n.
Proof. intros Hin. apply handler_dispatch. exact Hin. Qed.

(** X12.  Through any handler of the registry: when [parse] reports success,
    the storage it wrote passes the same handler's [validate]; when it
    reports failure for a text that is no number, the storage is as it
    was. *)
Theorem handler_parse_then_validate (h : Handler) (p : storage)
    (inp : option string) :
  In h registry ->
  (fst (parse h inp p) = true -> validate h (snd (parse h inp p)) = true) /\
  (fst (parse_float inp (literal 0 0)) = false -> parse h inp p = (false, p)).
Proof.
  intros Hin.
  destruct (handler_dispatch h Hin p inp "" 0) as (_ & Hp & _).
  rewrite Hp. cbn [fst snd]. split.
  - intros Hok.
    destruct (handler_dispatch h Hin
                (field (snd (parse_of (id h) inp (make (id h) p)))) inp "" 0)
      as (Hv & _ & _).
    rewrite Hv. pose proof (TraitsFacts.parse_success_validates _ _ _ Hok) as Hvalid.
    revert Hvalid. generalize (snd (parse_of (id h) inp (make (id h) p))).
    intros y Hy. replace (make (id h) (field y)) with y; [exact Hy|].
    destruct (id h); destruct y; reflexivity.
  - intros Hfail. rewrite parse_of_unfold.
    destruct (parse_float inp (literal 0 0)) as [ok v]. cbn [fst] in Hfail.
    subst ok. cbn [negb fst snd]. rewrite field_make. reflexivity.
Qed.

Lemma erased_dispatch_agrees_witness :
  exists h, find_by_name "FanDutyCycle" = Some h /\
            validate h (literal 200 0) = false.
Proof.
  eexists. split; [reflexivity|].
  match goal with |- validate ?h _ = _ =>
    rewrite (proj1 (erased_dispatch_agrees h (literal 200 0) None "" 0
                      ltac:(simpl; tauto)))
  end. reflexivity.
Defined.

Lemma handler_parse_then_validate_witness :
  exists h, find_by_id 1 = Some h /\
            fst (parse h (Some "120.5") (literal 0 0)) = true /\
            validate h (snd (parse h (Some "120.5") (literal 0 0))) = true.
Proof.
  eexists. split; [reflexivity|]. split; [reflexivity|].
  match goal with |- validate ?h _ = _ =>
    apply (handler_parse_then_validate h (literal 0 0) (Some "120.5")
             ltac:(simpl; tauto))
  end. reflexivity.
Defined.

End Registry.

(** ** The worker over whole runs *)

Module WorkerFacts.

Import Float32 LibC Detail Traits Worker.

Local Open Scope string_scope.
Local Open Scope list_scope.
Local Open Scope Z_scope.

Definition is_stop (m : Msg) : bool :=
  match m with
  | Msg_Stop _ => true
  | _ => false
  end.

Definition not_stop (m : Msg) : bool := negb (is_stop m).

(** The handlers applied to a list of messages, one after the other. *)
Definition handle_all (msgs : list Msg) (w : ParamWorker) : ParamWorker :=
  fold_left (fun w m => visit m w) msgs w.

(** The messages up to the first [Stop], that one included. *)
Fixpoint upto_stop (msgs : list Msg) : list Msg :=
  match msgs with
  | [] => []
  | m :: rest => if is_stop m then [m] else m :: upto_stop rest
  end.

(** The same worker on another state of the queue. *)
Definition with_queue (q : queue) (w : ParamWorker) : ParamWorker :=
  {| q_ := q; table_ := table_ w; running_ := running_ w; cout := cout w |}.

(** The most messages the queue of the worker holds. *)
Definition room : nat := 1023.

(** What [main] writes to [std::cout] when the two threads run the events
    [es]: the table before the worker starts, the worker's notices, the
    table after the worker is joined. *)
Definition main_output (es : list event) : string :=
  let w := run_events es (start fresh) in
  (print (table_ fresh) ++ cout w ++ print (table_ w))%string.

(** The value a message carries for the kind [id], if it is a [SetParam] of
    that kind. *)
Definition payload (id : ParameterID.t) (m : Msg) : option (tag id) :=
  match id as i return option (tag i) with
  | ParameterID.TemperatureSetpoint =>
      match m with Msg_TemperatureSetpoint s => Some (value s) | _ => None end
  | ParameterID.HighTemperatureAlarm =>
      match m with Msg_HighTemperatureAlarm s => Some (value s) | _ => None end
  | ParameterID.FanDutyCycle =>
      match m with Msg_FanDutyCycle s => Some (value s) | _ => None end
  end.

(** The values sent for the kind [id], in order. *)
Definition sent (id : ParameterID.t) (msgs : list Msg) : list (tag id) :=
  flat_map (fun m => match payload id m with Some v => [v] | None => [] end)
           msgs.

(** The kind of a [SetParam] whose value fails validation. *)
Definition rejected (m : Msg) : option ParameterID.t :=
  match m with
  | Msg_TemperatureSetpoint s =>
      if param_validate (value s) then None
      else Some ParameterID.TemperatureSetpoint
  | Msg_HighTemperatureAlarm s =>
      if param_validate (value s) then None
      else Some ParameterID.HighTemperatureAlarm
  | Msg_FanDutyCycle s =>
      if param_validate (value s) then None
      else Some ParameterID.FanDutyCycle
  | Msg_Stop _ => None
  end.

(** The line printed for a message, if any. *)
Definition notice (m : Msg) : string :=
  match rejected m with
  | Some k => ("[Reject] " ++ name_of k ++ " value" ++ newline)%string
  | None => ""
  end.

(** *** One step *)

Lemma capacity_value : SPSC.CapacityPow2 log2_capacity = 1024.
Proof. reflexivity. Qed.

Lemma with_queue_same (w : ParamWorker) : with_queue (q_ w) w = w.
Proof. destruct w; reflexivity. Qed.

Lemma with_queue_twice q q' w : with_queue q (with_queue q' w) = with_queue q w.
Proof. reflexivity. Qed.

Lemma visit_with_queue (m : Msg) (q : queue) (w : ParamWorker) :
  visit m (with_queue q w) = with_queue q (visit m w).
Proof.
  destruct (Msg_cases m) as [(id & v & ->)|(s & ->)].
  - rewrite !visit_SetParam. destruct (validate_of id v); reflexivity.
  - reflexivity.
Qed.

Lemma q_visit (m : Msg) (w : ParamWorker) : q_ (visit m w) = q_ w.
Proof.
  destruct (Msg_cases m) as [(id & v & ->)|(s & ->)].
  - rewrite visit_SetParam. destruct (validate_of id v); reflexivity.
  - reflexivity.
Qed.

Lemma running_visit (m : Msg) (w : ParamWorker) :
  running_ (visit m w) = running_ w && not_stop m.
Proof.
  destruct (Msg_cases m) as [(id & v & ->)|(s & ->)].
  - rewrite visit_SetParam.
    assert (not_stop (SetParam_msg id v) = true) as -> by (destruct id; reflexivity).
    rewrite andb_true_r. destruct (validate_of id v); reflexivity.
  - cbn. rewrite andb_false_r. reflexivity.
Qed.

Lemma is_stop_inv (m : Msg) : is_stop m = true -> exists s, m = Msg_Stop s.
Proof. destruct m; try discriminate. eauto. Qed.

Lemma handle_all_app (l1 l2 : list Msg) (w : ParamWorker) :
  handle_all (l1 ++ l2) w = handle_all l2 (handle_all l1 w).
Proof. apply fold_left_app. Qed.

Lemma handle_all_with_queue (msgs : list Msg) q w :
  handle_all msgs (with_queue q w) = with_queue q (handle_all msgs w).
Proof.
  revert w. induction msgs as [|m msgs IH]; intros w; [reflexivity|].
  cbn [handle_all fold_left]. fold (handle_all msgs (visit m (with_queue q w))).
  rewrite visit_with_queue. apply IH.
Qed.

Lemma running_handle_all (msgs : list Msg) (w : ParamWorker) :
  running_ (handle_all msgs w) = running_ w && forallb not_stop msgs.
Proof.
  revert w. induction msgs as [|m msgs IH]; intros w.
  - cbn. rewrite andb_true_r. reflexivity.
  - cbn [handle_all fold_left forallb]. fold (handle_all msgs (visit m w)).
    rewrite IH, running_visit, andb_assoc. reflexivity.
Qed.

(** A push by the producer. *)
Lemma push_step (w : ParamWorker) (m : Msg) :
  SPSC.wf log2_capacity (q_ w) ->
  SPSC.wf log2_capacity (q_ (step w (producer_push m))) /\
  step w (producer_push m) = with_queue (q_ (step w (producer_push m))) w /\
  unconsumed (step w (producer_push m))
  = if (length (unconsumed w) <? room)%nat then unconsumed w ++ [m]
    else unconsumed w.
Proof.
  intros Hq. cbn [step q_]. split.
  { apply (SPSC.wf_try_push log2_capacity capacity_fits), Hq. }
  split; [reflexivity|].
  unfold unconsumed. cbn [q_]. unfold try_push.
  pose proof (SPSC.pending_lt log2_capacity capacity_fits _ Hq) as Hlt.
  pose proof (SPSC.is_full_pending log2_capacity capacity_fits _ Hq) as Hfull.
  rewrite capacity_value in Hlt, Hfull.
  rewrite (SPSC.length_contents Msg_default log2_capacity).
  destruct (SPSC.is_full log2_capacity (q_ w)) eqn:E.
  - rewrite (SPSC.try_push_full _ _ _ E). cbn [snd].
    destruct (Nat.ltb_spec (SPSC.pending log2_capacity (q_ w)) room);
      [|reflexivity].
    unfold room in *. pose proof (proj1 Hfull eq_refl). lia.
  - rewrite (SPSC.contents_try_push Msg_default _ capacity_fits _ _ Hq E).
    destruct (Nat.ltb_spec (SPSC.pending log2_capacity (q_ w)) room);
      [reflexivity|].
    unfold room in *.
    assert (Z.of_nat (SPSC.pending log2_capacity (q_ w)) = 1024 - 1) by lia.
    apply Hfull in H0. congruence.
Qed.

(** A turn of the running worker. *)
Lemma turn_step (w : ParamWorker) :
  SPSC.wf log2_capacity (q_ w) -> running_ w = true ->
  match unconsumed w with
  | [] => step w worker_turn = w
  | x :: rest =>
      exists q', SPSC.wf log2_capacity q' /\
                 SPSC.contents Msg_default log2_capacity q' = rest /\
                 step w worker_turn = visit x (with_queue q' w)
  end.
Proof.
  intros Hq Hrun. cbn [step]. rewrite Hrun.
  pose proof (SPSC.try_pop_contents Msg_default _ capacity_fits _ Hq) as Hpop.
  unfold unconsumed. destruct (SPSC.contents Msg_default log2_capacity (q_ w))
    as [|x rest].
  - unfold run_iteration, try_pop. rewrite Hpop. reflexivity.
  - destruct Hpop as [Hx Hrest].
    exists (snd (try_pop (q_ w))). split.
    { apply (SPSC.wf_try_pop Msg_default _ capacity_fits), Hq. }
    split; [exact Hrest|].
    apply run_iteration_pop. exact Hx.
Qed.

Lemma unconsumed_visit_with_queue m q w :
  unconsumed (visit m (with_queue q w))
  = SPSC.contents Msg_default log2_capacity q.
Proof. unfold unconsumed. rewrite q_visit. reflexivity. Qed.

Lemma q_handle_all (msgs : list Msg) (w : ParamWorker) :
  q_ (handle_all msgs w) = q_ w.
Proof.
  revert w. induction msgs as [|m msgs IH]; intros w; [reflexivity|].
  cbn [handle_all fold_left]. fold (handle_all msgs (visit m w)).
  rewrite IH. apply q_visit.
Qed.

Lemma run_iteration_step (w : ParamWorker) :
  running_ w = true -> run_iteration w = step w worker_turn.
Proof. intros H. cbn [step]. rewrite H. reflexivity. Qed.

(** *** What handling a list of messages amounts to *)

Lemma last_cons {A : Type} (x d : A) (l : list A) :
  List.last (x :: l) d = List.last l x.
Proof.
  destruct l as [|y l]; [reflexivity|].
  change (List.last (x :: y :: l) d) with (List.last (y :: l) d).
  revert y. induction l as [|z l IH]; intros y; [reflexivity|].
  change (List.last (y :: z :: l) d) with (List.last (z :: l) d).
  change (List.last (y :: z :: l) x) with (List.last (z :: l) x).
  apply IH.
Qed.

Lemma payload_SetParam (id id' : ParameterID.t) (v : tag id') :
  match payload id (SetParam_msg id' v) with
  | Some v' => exists E : id' = id, v' = eq_rect id' tag v id E
  | None => id' <> id
  end.
Proof.
  destruct id, id'; cbn; try discriminate; exists eq_refl; reflexivity.
Qed.

Lemma slot_after_visit (id : ParameterID.t) (m : Msg) (w : ParamWorker) :
  get id (table_ (visit m w))
  = match payload id m with
    | Some v => if validate_of id v then v else get id (table_ w)
    | None => get id (table_ w)
    end.
Proof.
  destruct (Msg_cases m) as [(id' & v & ->)|(s & ->)].
  - rewrite visit_SetParam. pose proof (payload_SetParam id id' v) as Hp.
    destruct (payload id (SetParam_msg id' v)) as [v'|].
    + destruct Hp as [E ->]. subst id'. cbn [eq_rect].
      destruct (validate_of id v); cbn [table_]; [apply get_set_of|reflexivity].
    + destruct (validate_of id' v); cbn [table_]; [|reflexivity].
      apply get_set_of_other. congruence.
  - destruct id; reflexivity.
Qed.

(** X19.  After a list of messages has been handled, the slot of a kind
    holds the last value sent for that kind that passes validation, or what
    it held before if there is none: values of other kinds, rejected values
    and [Stop] leave it alone. *)
Theorem slot_holds_last_valid (id : ParameterID.t) (msgs : list Msg)
    (w : ParamWorker) :
  get id (table_ (handle_all msgs w))
  = List.last (List.filter (validate_of id) (sent id msgs))
              (get id (table_ w)).
Proof.
  revert w. induction msgs as [|m msgs IH]; intros w; [reflexivity|].
  cbn [handle_all fold_left]. fold (handle_all msgs (visit m w)).
  rewrite IH, slot_after_visit. unfold sent. cbn [flat_map].
  destruct (payload id m) as [v|]; cbn [app]; [|reflexivity].
  cbn [List.filter]. destruct (validate_of id v); [|reflexivity].
  rewrite last_cons. reflexivity.
Qed.

Lemma append_assoc (s1 s2 s3 : string) :
  ((s1 ++ s2) ++ s3 = s1 ++ s2 ++ s3)%string.
Proof. induction s1 as [|c s1 IH]; simpl; [reflexivity|]. rewrite IH. reflexivity. Qed.

Lemma append_empty (s : string) : (s ++ "" = s)%string.
Proof. induction s as [|c s IH]; simpl; [reflexivity|]. rewrite IH. reflexivity. Qed.

Lemma cout_after_visit (m : Msg) (w : ParamWorker) :
  cout (visit m w) = (cout w ++ notice m)%string.
Proof.
  destruct m as [[v]|[v]|[v]|s]; cbn [visit]; unfold handle, notice, rejected;
    cbn [value]; try (symmetry; apply append_empty);
    (destruct (param_validate v); [symmetry; apply append_empty|]);
    destruct (param_serialize v "" 32); reflexivity.
Qed.

(** X20.  Handling a list of messages prints one line for each [SetParam]
    whose value fails validation, in the order of the messages and with the
    name of its kind, and nothing else. *)
Theorem one_notice_per_rejection (msgs : list Msg) (w : ParamWorker) :
  cout (handle_all msgs w)
  = (cout w ++ String.concat "" (map notice msgs))%string.
Proof.
  revert w. induction msgs as [|m msgs IH]; intros w.
  - cbn. symmetry. apply append_empty.
  - cbn [handle_all fold_left]. fold (handle_all msgs (visit m w)).
    rewrite IH, cout_after_visit, append_assoc. f_equal.
    cbn [map]. destruct (map notice msgs) as [|n ns].
    + cbn. apply append_empty.
    + reflexivity.
Qed.

(** *** [run] alone on the queue *)

Lemma run_drains (pre : list Msg) :
  forall (w : ParamWorker) (s : Stop) (post : list Msg) (fuel : nat),
    SPSC.wf log2_capacity (q_ w) -> running_ w = true ->
    unconsumed w = pre ++ Msg_Stop s :: post ->
    forallb not_stop pre = true ->
    (length pre < fuel)%nat ->
    exists w', run fuel w = Some w' /\
               with_queue (q_ w) w' = handle_all (pre ++ [Msg_Stop s]) w /\
               unconsumed w' = post.
Proof.
  induction pre as [|x pre IH]; intros w s post fuel Hq Hrun Hun Hns Hfuel;
    (destruct fuel as [|fuel]; [simpl in Hfuel; lia|]);
    cbn [run]; rewrite Hrun, (run_iteration_step w Hrun);
    pose proof (turn_step w Hq Hrun) as Hturn; rewrite Hun in Hturn;
    cbn [app] in Hturn; destruct Hturn as (q' & Hq' & Hc' & Hstep);
    rewrite Hstep.
  - exists (visit (Msg_Stop s) (with_queue q' w)). split; [|split].
    + destruct fuel; reflexivity.
    + rewrite visit_with_queue, with_queue_twice.
      cbn [app handle_all fold_left].
      rewrite <- (q_visit (Msg_Stop s) w) at 1. apply with_queue_same.
    + rewrite unconsumed_visit_with_queue. exact Hc'.
  - cbn [forallb] in Hns. apply andb_true_iff in Hns. destruct Hns as [Hx Hns].
    set (w1 := visit x (with_queue q' w)).
    assert (Hq1 : SPSC.wf log2_capacity (q_ w1)).
    { unfold w1. rewrite q_visit. exact Hq'. }
    assert (Hrun1 : running_ w1 = true).
    { unfold w1. rewrite running_visit. cbn [with_queue running_].
      rewrite Hrun, Hx. reflexivity. }
    assert (Hun1 : unconsumed w1 = pre ++ Msg_Stop s :: post).
    { unfold w1. rewrite unconsumed_visit_with_queue. exact Hc'. }
    destruct (IH w1 s post fuel Hq1 Hrun1 Hun1 Hns ltac:(simpl in Hfuel; lia))
      as (w' & Hrunw & Hw' & Hpost).
    exists w'. split; [exact Hrunw|]. split; [|exact Hpost].
    cbn [app handle_all fold_left]. fold (handle_all (pre ++ [Msg_Stop s]) (visit x w)).
    assert (E : with_queue (q_ w) (with_queue (q_ w1) w')
                = with_queue (q_ w) (handle_all (pre ++ [Msg_Stop s]) w1))
      by (rewrite Hw'; reflexivity).
    rewrite with_queue_twice in E. rewrite E. unfold w1.
    rewrite visit_with_queue, handle_all_with_queue, with_queue_twice.
    rewrite <- (q_visit x w), <- (q_handle_all (pre ++ [Msg_Stop s]) (visit x w)).
    apply with_queue_same.
Qed.

(** X13.  Alone on a queue that holds [pre], then [Stop], then [post], with
    no [Stop] in [pre], [run] returns once it has more iterations than [pre]
    has messages: it has handled the messages of [pre] in order and the
    [Stop], the flag is clear, and [post] is still in the queue. *)
Theorem run_handles_up_to_stop (w : ParamWorker) (pre post : list Msg)
    (s : Stop) (fuel : nat) :
  SPSC.wf log2_capacity (q_ w) -> running_ w = true ->
  unconsumed w = pre ++ Msg_Stop s :: post ->
  forallb not_stop pre = true ->
  (length pre < fuel)%nat ->
  exists w', run fuel w = Some w' /\
             running_ w' = false /\
             table_ w' = table_ (handle_all pre w) /\
             cout w' = cout (handle_all pre w) /\
             unconsumed w' = post.
Proof.
  intros Hq Hrun Hun Hns Hfuel.
  destruct (run_drains pre w s post fuel Hq Hrun Hun Hns Hfuel)
    as (w' & Hw & Heq & Hpost).
  exists w'. split; [exact Hw|].
  rewrite handle_all_app in Heq. cbn [handle_all fold_left visit handle_Stop] in Heq.
  fold (handle_all pre w) in Heq.
  assert (Ht : table_ (with_queue (q_ w) w') = table_ (handle_all pre w))
    by (rewrite Heq; reflexivity).
  assert (Hc : cout (with_queue (q_ w) w') = cout (handle_all pre w))
    by (rewrite Heq; reflexivity).
  assert (Hr : running_ (with_queue (q_ w) w') = false)
    by (rewrite Heq; reflexivity).
  auto.
Qed.

(** X14.  Alone on a queue that holds no [Stop], [run] does not return:
    however many iterations it is given, it is still in its loop after
    them. *)
Theorem run_needs_stop (fuel : nat) (w : ParamWorker) :
  SPSC.wf log2_capacity (q_ w) -> running_ w = true ->
  forallb not_stop (unconsumed w) = true ->
  run fuel w = None.
Proof.
  revert w. induction fuel as [|fuel IH]; intros w Hq Hrun Hns; cbn [run];
    rewrite Hrun; [reflexivity|].
  rewrite (run_iteration_step w Hrun).
  pose proof (turn_step w Hq Hrun) as Hturn.
  destruct (unconsumed w) as [|x rest] eqn:Hun.
  - rewrite Hturn. apply IH; [assumption..|]. rewrite Hun. reflexivity.
  - destruct Hturn as (q' & Hq' & Hc' & Hstep). rewrite Hstep.
    cbn [forallb] in Hns. apply andb_true_iff in Hns. destruct Hns as [Hx Hns].
    apply IH.
    + rewrite q_visit. exact Hq'.
    + rewrite running_visit. cbn [with_queue running_]. rewrite Hrun, Hx.
      reflexivity.
    + rewrite unconsumed_visit_with_queue, Hc'. exact Hns.
Qed.

(** *** The two threads interleaved *)

Lemma offered_app (es1 es2 : list event) :
  offered (es1 ++ es2) = offered es1 ++ offered es2.
Proof.
  induction es1 as [|[m|] es1 IH]; cbn [app offered]; [reflexivity|..].
  - rewrite IH. reflexivity.
  - exact IH.
Qed.

Lemma run_events_app (es1 es2 : list event) (w : ParamWorker) :
  run_events (es1 ++ es2) w = run_events es2 (run_events es1 w).
Proof. apply fold_left_app. Qed.

Lemma upto_stop_app_running (pre rest : list Msg) :
  forallb not_stop pre = true ->
  upto_stop (pre ++ rest) = pre ++ upto_stop rest.
Proof.
  induction pre as [|m pre IH]; intros H; [reflexivity|].
  cbn [forallb] in H. apply andb_true_iff in H. destruct H as [Hm H].
  cbn [app upto_stop]. unfold not_stop in Hm.
  destruct (is_stop m); [discriminate|]. rewrite IH by assumption. reflexivity.
Qed.

Lemma length_upto_stop (msgs : list Msg) :
  (length (upto_stop msgs) <= length msgs)%nat.
Proof.
  induction msgs as [|m msgs IH]; cbn [upto_stop]; [lia|].
  destruct (is_stop m); simpl; lia.
Qed.

(** As long as no push is refused, the worker has handled, in order, some
    of the messages offered so far, and the rest are in the queue. *)
Lemma schedule_invariant (es : list event) :
  (length (offered es) <= room)%nat ->
  let w := run_events es (start fresh) in
  SPSC.wf log2_capacity (q_ w) /\
  exists done : list Msg,
    offered es = done ++ unconsumed w /\
    w = with_queue (q_ w) (handle_all done (start fresh)) /\
    if running_ w then forallb not_stop done = true
    else exists pre s, done = pre ++ [Msg_Stop s] /\
                       forallb not_stop pre = true.
Proof.
  induction es as [|e es IH] using rev_ind; intros Hlen; cbn zeta.
  - split; [apply (SPSC.wf_empty Msg_default _ capacity_fits)|].
    exists []. repeat split.
  - rewrite offered_app in Hlen. rewrite length_app in Hlen.
    specialize (IH ltac:(lia)). cbn zeta in IH.
    destruct IH as (Hq & done & Hoff & Hw & Hstate).
    rewrite run_events_app, offered_app.
    cbn [run_events fold_left]. fold (run_events es (start fresh)).
    set (w := run_events es (start fresh)) in *.
    destruct e as [m|].
    + destruct (push_step w m Hq) as (Hq1 & Hw1 & Hun1).
      split; [exact Hq1|]. exists done.
      assert (Hroom : (length (unconsumed w) < room)%nat).
      { rewrite Hoff, length_app in Hlen. cbn [offered length] in Hlen. lia. }
      apply Nat.ltb_lt in Hroom. rewrite Hroom in Hun1.
      split; [|split].
      * cbn [offered]. rewrite Hun1, Hoff, <- app_assoc. reflexivity.
      * rewrite Hw1 at 1. rewrite Hw at 2. reflexivity.
      * rewrite Hw1. exact Hstate.
    + cbn [offered]. rewrite app_nil_r.
      destruct (running_ w) eqn:Hrun.
      * pose proof (turn_step w Hq Hrun) as Hturn.
        destruct (unconsumed w) as [|x rest] eqn:Hun.
        -- rewrite Hturn. split; [exact Hq|]. exists done.
           rewrite Hun, Hrun. auto.
        -- destruct Hturn as (q' & Hq' & Hc' & Hstep). rewrite Hstep.
           split; [rewrite q_visit; exact Hq'|].
           exists (done ++ [x]). split; [|split].
           ++ rewrite unconsumed_visit_with_queue, Hc', Hoff, <- app_assoc.
              reflexivity.
           ++ rewrite q_visit. cbn [with_queue q_].
              rewrite handle_all_app. cbn [handle_all fold_left].
              fold (handle_all done (start fresh)).
              rewrite Hw at 1. rewrite with_queue_twice.
              rewrite visit_with_queue. reflexivity.
           ++ rewrite running_visit. cbn [with_queue running_]. rewrite Hrun.
              cbn [andb]. unfold not_stop at 1.
              destruct (is_stop x) eqn:Hx; cbn [negb].
              ** destruct (is_stop_inv x Hx) as [s ->]. exists done, s. auto.
              ** rewrite forallb_app, Hstate. cbn [forallb]. unfold not_stop.
                 rewrite Hx. reflexivity.
      * cbn [step]. rewrite Hrun. split; [exact Hq|]. exists done.
        rewrite Hrun. auto.
Qed.

Lemma schedule_prefix (es : list event) :
  (length (offered es) <= room)%nat ->
  let w := run_events es (start fresh) in
  exists n : nat,
    let done := firstn n (upto_stop (offered es)) in
    (n <= length (upto_stop (offered es)))%nat /\
    table_ w = table_ (handle_all done (start fresh)) /\
    cout w = cout (handle_all done (start fresh)) /\
    running_ w = running_ (handle_all done (start fresh)) /\
    unconsumed w = skipn n (offered es) /\
    (running_ w = false -> n = length (upto_stop (offered es))).
Proof.
  intros Hlen. destruct (schedule_invariant es Hlen) as (Hq & done & Hoff & Hw & Hst).
  cbn zeta. set (w := run_events es (start fresh)) in *.
  exists (length done).
  assert (Hupto : upto_stop (offered es) = done ++
                  (if running_ w then upto_stop (unconsumed w) else [])).
  { rewrite Hoff. destruct (running_ w).
    - apply upto_stop_app_running. exact Hst.
    - destruct Hst as (pre & s & -> & Hpre). rewrite <- !app_assoc.
      rewrite upto_stop_app_running by assumption. reflexivity. }
  cbn zeta. rewrite Hupto, take_app_length.
  assert (Hobs : table_ w = table_ (handle_all done (start fresh)) /\
                 cout w = cout (handle_all done (start fresh)) /\
                 running_ w = running_ (handle_all done (start fresh))).
  { rewrite Hw at 1 2 3. auto. }
  destruct Hobs as (Ht & Hc & Hr).
  repeat match goal with |- _ /\ _ => split end; try assumption.
  - rewrite length_app. lia.
  - rewrite Hoff at 1. rewrite drop_app_length. reflexivity.
  - intros Hstop. rewrite Hstop. rewrite app_nil_r. reflexivity.
Qed.


(** X16.  A worker whose flag is clear, be it stopped or never started,
    takes nothing out of the queue, changes neither table nor output, and
    the queue keeps, of what it held and what is pushed afterwards, exactly
    the first 1023 messages: later pushes are refused. *)
Theorem idle_worker_backlog (es : list event) (w0 : ParamWorker) :
  SPSC.wf log2_capacity (q_ w0) -> running_ w0 = false ->
  let w := run_events es w0 in
  running_ w = false /\ table_ w = table_ w0 /\ cout w = cout w0 /\
  unconsumed w = firstn room (unconsumed w0 ++ offered es).
Proof.
  revert w0. induction es as [|e es IH]; intros w0 Hq Hstop; cbn zeta.
  - cbn [run_events fold_left offered]. rewrite app_nil_r.
    repeat split; try assumption. symmetry. apply take_ge.
    unfold unconsumed. rewrite (SPSC.length_contents Msg_default log2_capacity).
    pose proof (SPSC.pending_lt log2_capacity capacity_fits _ Hq) as Hlt.
    rewrite capacity_value in Hlt. unfold room. lia.
  - cbn [run_events fold_left]. fold (run_events es (step w0 e)).
    destruct e as [m|].
    + destruct (push_step w0 m Hq) as (Hq1 & Hw1 & Hun1).
      assert (Hstop1 : running_ (step w0 (producer_push m)) = false)
        by (rewrite Hw1; exact Hstop).
      destruct (IH _ Hq1 Hstop1) as (Hr & Ht & Hc & Hu).
      rewrite Hr, Ht, Hc, Hu, Hun1. cbn [step table_ cout offered].
      repeat split.
      destruct (Nat.ltb_spec (length (unconsumed w0)) room) as [Hlt|Hge].
      * rewrite <- app_assoc. reflexivity.
      * rewrite !take_app_le by exact Hge. reflexivity.
    + cbn [step offered]. rewrite Hstop. apply (IH w0 Hq Hstop).
Qed.

(** *** Printing the table *)

Lemma valid_text_short (id : ParameterID.t) (x : tag id) :
  valid (field x) = true -> validate_of id x = true ->
  Z.of_nat (String.length (fmt_2f (field x))) < 7.
Proof.
  intros Hv Hok. apply (validate_of_range id x Hv) in Hok.
  destruct (text_in_range id (field x) Hok) as (neg & h & Htext & Hcase).
  assert (Hrt : roundtrip_ok id neg h = true).
  { destruct Hcase as [[-> Hh]|[-> ->]].
    - apply (all_from_spec _ _ 0 h (roundtrip_table id)). lia.
    - apply roundtrip_negative_zero. }
  unfold roundtrip_ok in Hrt. rewrite <- Htext in Hrt.
  destruct (parse_float (Some (fmt_2f (field x))) (literal 0 0)) as [[|] v];
    [|discriminate].
  apply andb_true_iff in Hrt. destruct Hrt as [_ Hlen].
  apply Z.ltb_lt in Hlen. exact Hlen.
Qed.

Lemma serialize_valid (id : ParameterID.t) (x : tag id) (out : string) :
  valid (field x) = true -> validate_of id x = true ->
  serialize_of id x out 32
  = (Z.of_nat (String.length (fmt_2f (field x))), fmt_2f (field x)) /\
  (Z.of_nat (String.length (fmt_2f (field x))) =? 0) = false.
Proof.
  intros Hv Hok. pose proof (valid_text_short id x Hv Hok) as Hlen.
  split.
  - rewrite serialize_of_unfold. apply safe_snp_fits. lia.
  - pose proof (TraitsFacts.fmt_2f_nonempty (field x)). apply Z.eqb_neq. lia.
Qed.

(** X17.  For a table whose slots hold binary32 values that pass
    validation, [print] shows the two-decimal text of every slot: the
    buffer of 32 bytes always suffices and the placeholder [?] never
    appears. *)
Theorem print_shows_every_value (tbl : ParameterTable) :
  table_valid tbl ->
  (forall id, valid (field (get id tbl)) = true) ->
  print tbl
  = (("Params { Tset=" ++ fmt_2f (Traits.value (t tbl)))
     ++ (", HighAlarm=" ++ fmt_2f (threshold (a tbl)))
     ++ (", FanDuty=" ++ fmt_2f (percent (f tbl)) ++ "% }" ++ newline))%string.
Proof.
  intros Hok Hv. unfold print.
  assert (E1 : forall out, param_serialize (t tbl) out 32
               = (Z.of_nat (String.length (fmt_2f (Traits.value (t tbl)))),
                  fmt_2f (Traits.value (t tbl)))).
  { intros out.
    exact (proj1 (serialize_valid ParameterID.TemperatureSetpoint (t tbl) out
                    (Hv ParameterID.TemperatureSetpoint)
                    (Hok ParameterID.TemperatureSetpoint))). }
  assert (N1 : (Z.of_nat (String.length (fmt_2f (Traits.value (t tbl)))) =? 0)
               = false).
  { exact (proj2 (serialize_valid ParameterID.TemperatureSetpoint (t tbl) ""
                    (Hv ParameterID.TemperatureSetpoint)
                    (Hok ParameterID.TemperatureSetpoint))). }
  assert (E2 : forall out, param_serialize (a tbl) out 32
               = (Z.of_nat (String.length (fmt_2f (threshold (a tbl)))),
                  fmt_2f (threshold (a tbl)))).
  { intros out.
    exact (proj1 (serialize_valid ParameterID.HighTemperatureAlarm (a tbl) out
                    (Hv ParameterID.HighTemperatureAlarm)
                    (Hok ParameterID.HighTemperatureAlarm))). }
  assert (N2 : (Z.of_nat (String.length (fmt_2f (threshold (a tbl)))) =? 0)
               = false).
  { exact (proj2 (serialize_valid ParameterID.HighTemperatureAlarm (a tbl) ""
                    (Hv ParameterID.HighTemperatureAlarm)
                    (Hok ParameterID.HighTemperatureAlarm))). }
  assert (E3 : forall out, param_serialize (f tbl) out 32
               = (Z.of_nat (String.length (fmt_2f (percent (f tbl)))),
                  fmt_2f (percent (f tbl)))).
  { intros out.
    exact (proj1 (serialize_valid ParameterID.FanDutyCycle (f tbl) out
                    (Hv ParameterID.FanDutyCycle)
                    (Hok ParameterID.FanDutyCycle))). }
  assert (N3 : (Z.of_nat (String.length (fmt_2f (percent (f tbl)))) =? 0)
               = false).
  { exact (proj2 (serialize_valid ParameterID.FanDutyCycle (f tbl) ""
                    (Hv ParameterID.FanDutyCycle)
                    (Hok ParameterID.FanDutyCycle))). }
  rewrite E1. cbv beta iota zeta. rewrite E2. cbv beta iota zeta.
  rewrite E3. cbv beta iota zeta. rewrite N1, N2, N3. reflexivity.
Qed.

(** *** [main] *)

(** X18.  Whatever the interleaving of the five pushes of [main] with the
    turns of the worker, once the worker has stopped the program has
    printed the defaults, one rejection for the fan duty cycle of 200, and
    the table with 37.50, 90.00 and 45.00. *)
Theorem main_output_any_schedule (es : list event) :
  offered es = main_messages ->
  running_ (run_events es (start fresh)) = false ->
  main_output es
  = ("Params { Tset=37.50, HighAlarm=80.00, FanDuty=50.00% }" ++ newline
     ++ "[Reject] FanDutyCycle value" ++ newline
     ++ "Params { Tset=37.50, HighAlarm=90.00, FanDuty=45.00% }" ++ newline)%string.
Proof.
  intros Hoff Hstop.
  destruct (schedule_prefix es) as (n & _ & Ht & Hc & _ & _ & Hn).
  { rewrite Hoff. unfold room. simpl. lia. }
  specialize (Hn Hstop). subst n. rewrite Hoff in Ht, Hc.
  unfold main_output. rewrite Ht, Hc.
  vm_compute. reflexivity.
Qed.

(** *** The properties on the run of [main] *)

Definition pushes_then_turns : list event :=
  map producer_push main_messages ++ repeat worker_turn 5.

Lemma run_handles_up_to_stop_witness :
  let w := run_events (map producer_push main_messages) (start fresh) in
  exists w', run 5 w = Some w' /\ running_ w' = false /\
             table_ w' = table_ (handle_all (firstn 4 main_messages) w) /\
             cout w' = cout (handle_all (firstn 4 main_messages) w) /\
             unconsumed w' = [].
Proof.
  cbv zeta.
  apply (run_handles_up_to_stop
           (run_events (map producer_push main_messages) (start fresh))
           (firstn 4 main_messages) [] Stop_ 5).
  - apply (schedule_invariant (map producer_push main_messages)).
    unfold room. simpl. lia.
  - reflexivity.
  - vm_compute. reflexivity.
  - reflexivity.
  - simpl. lia.
Defined.

Lemma run_needs_stop_witness : run 3 (start fresh) = None.
Proof.
  apply (run_needs_stop 3 (start fresh)).
  - apply (SPSC.wf_empty Msg_default _ capacity_fits).
  - reflexivity.
  - vm_compute. reflexivity.
Defined.


Lemma idle_worker_backlog_witness :
  let w := run_events [producer_push (Msg_Stop Stop_); worker_turn] fresh in
  running_ w = false /\ table_ w = table_ fresh /\ cout w = cout fresh /\
  unconsumed w = firstn room (unconsumed fresh ++ [Msg_Stop Stop_]).
Proof.
  apply (idle_worker_backlog [producer_push (Msg_Stop Stop_); worker_turn] fresh).
  - apply (SPSC.wf_empty Msg_default _ capacity_fits).
  - reflexivity.
Defined.

Lemma print_shows_every_value_witness :
  print ParameterTable_init
  = (("Params { Tset=" ++ fmt_2f (Traits.value (t ParameterTable_init)))
     ++ (", HighAlarm=" ++ fmt_2f (threshold (a ParameterTable_init)))
     ++ (", FanDuty=" ++ fmt_2f (percent (f ParameterTable_init)) ++ "% }"
         ++ newline))%string.
Proof.
  apply (print_shows_every_value ParameterTable_init).
  - apply table_valid_init.
  - intros []; reflexivity.
Defined.

Lemma main_output_any_schedule_witness :
  offered pushes_then_turns = main_messages /\
  running_ (run_events pushes_then_turns (start fresh)) = false /\
  main_output pushes_then_turns
  = ("Params { Tset=37.50, HighAlarm=80.00, FanDuty=50.00% }" ++ newline
     ++ "[Reject] FanDutyCycle value" ++ newline
     ++ "Params { Tset=37.50, HighAlarm=90.00, FanDuty=45.00% }" ++ newline)%string.
Proof.
  split; [reflexivity|]. split; [reflexivity|].
  apply (main_output_any_schedule pushes_then_turns); reflexivity.
Defined.

End WorkerFacts.
